(** * Round-robin PCB simulator (pcb_simulator.cpp)

    A shallow embedding of the process control block record, the trace
    printer, the completion check, the scheduler loop and the input
    reader of [main], followed by the properties of the scheduler. *)

From Stdlib Require Import ZArith String Ascii DecimalString DecimalPos.
From stdpp Require Import base list gmap strings relations sorting.

Local Open Scope Z_scope.

(** ** Machine integers

    The program computes on C++ [int].  Values are kept in [Z]; the
    result of an addition or subtraction is brought back into the 32-bit
    two's complement range by [wrap_int].  (Signed overflow is undefined
    in C++; wrapping is what the usual targets do, and none of the
    properties below relies on a wrapped result.) *)

Definition INT_MIN : Z := - 2 ^ 31.
Definition INT_MAX : Z := 2 ^ 31 - 1.

Definition wrap_int (z : Z) : Z := (z + 2 ^ 31) mod 2 ^ 32 - 2 ^ 31.

Definition in_int_range (z : Z) : bool := (INT_MIN <=? z) && (z <=? INT_MAX).

(** Decimal rendering of an [int], as [operator<<] prints it. *)
Definition show_int (z : Z) : string := NilZero.string_of_int (Z.to_int z).

(** ** The PCB structure *)

Record PCB := mkPCB {
  pid : Z;          (* Process ID *)
  state : string;   (* "Ready", "Running", "Terminated" *)
  pc : Z;           (* Program counter *)
  total_work : Z    (* Total work units needed *)
}.

(** The constructor [PCB(process_id, work_units)]. *)
Definition new_PCB (process_id work_units : Z) : PCB :=
  {| pid := process_id; state := "Ready"; pc := 0; total_work := work_units |}.

Definition set_state (p : PCB) (s : string) : PCB :=
  {| pid := pid p; state := s; pc := pc p; total_work := total_work p |}.

Definition set_pc (p : PCB) (v : Z) : PCB :=
  {| pid := pid p; state := state p; pc := v; total_work := total_work p |}.

(** ** printProcessStates

    The vector is copied, the copy is sorted with the comparator
    [a.pid < b.pid], and one line per element is written after the
    header.  The sort is an insertion sort on the copy: a record moves
    behind the records [q] of the sorted rest with [q.pid < p.pid], so
    records of equal pid keep their vector order.  [std::sort] leaves the
    order of equal pids unspecified; on distinct pids every sort gives the
    same result, and no property below depends on the order of equal
    pids. *)

Fixpoint insert_by_pid (p : PCB) (l : list PCB) : list PCB :=
  match l with
  | [] => [p]
  | q :: l' => if pid q <? pid p then q :: insert_by_pid p l' else p :: q :: l'
  end.

Fixpoint sort_by_pid (l : list PCB) : list PCB :=
  match l with
  | [] => []
  | p :: l' => insert_by_pid p (sort_by_pid l')
  end.

Definition pcb_line (p : PCB) : string :=
  "PID " +:+ show_int (pid p) +:+ ": " +:+ state p +:+ ", at pc " +:+ show_int (pc p).

Definition interrupt_line (timeSlice : Z) : string :=
  "Interrupt " +:+ show_int timeSlice +:+ ":".

Definition printProcessStates (pcbs : list PCB) (timeSlice : Z) : list string :=
  let sorted_pcbs := sort_by_pid pcbs in
  interrupt_line timeSlice :: map pcb_line sorted_pcbs.

(** ** allProcessesTerminated *)

Fixpoint allProcessesTerminated (pcbs : list PCB) : bool :=
  match pcbs with
  | [] => true
  | p :: rest =>
      if negb (String.eqb (state p) "Terminated") then false
      else allProcessesTerminated rest
  end.

(** ** kernelSimulator

    The simulator state: the process vector (shared with the caller by
    reference), the ready queue of indices into it (front of the queue =
    head of the list), the tick counter and the lines written to standard
    output so far. *)

Record sim := mkSim {
  pcbs : list PCB;
  readyQueue : list nat;
  currentTime : Z;
  cout : list string
}.

(** Lines 64-77: the dispatched record becomes Running, works for the
    quantum or until completion, and becomes Terminated when done. *)
Definition dispatch (timeQuantum : Z) (currentProcess : PCB) : PCB :=
  let p1 := set_state currentProcess "Running" in
  let workDone := Z.min timeQuantum (wrap_int (total_work p1 - pc p1)) in
  let p2 := set_pc p1 (wrap_int (pc p1 + workDone)) in
  if pc p2 >=? total_work p2 then set_state p2 "Terminated" else p2.

(** The call [printProcessStates(pcbs, currentTime)] seen from the loop. *)
Definition emit (st : sim) : sim :=
  {| pcbs := pcbs st; readyQueue := readyQueue st; currentTime := currentTime st;
     cout := cout st ++ printProcessStates (pcbs st) (currentTime st) |}.

(** Lines 83-86: after printing, an unfinished process is set to Ready and
    pushed at the back of the queue. *)
Definition requeue (currentProcessIndex : nat) (st : sim) : option sim :=
  currentProcess ← pcbs st !! currentProcessIndex;
  if pc currentProcess <? total_work currentProcess then
    Some {| pcbs := <[currentProcessIndex := set_state currentProcess "Ready"]> (pcbs st);
            readyQueue := readyQueue st ++ [currentProcessIndex];
            currentTime := currentTime st; cout := cout st |}
  else Some st.

(** Lines 54-77: the tick counter is incremented and the front of the
    queue, if any, is popped and dispatched.  The result is the state in
    which [printProcessStates] is called.  An index outside the vector
    (never produced by the program) has no result. *)
Definition before_print (timeQuantum : Z) (st : sim) : option sim :=
  let t := wrap_int (currentTime st + 1) in
  match readyQueue st with
  | currentProcessIndex :: rest =>
      currentProcess ← pcbs st !! currentProcessIndex;
      Some {| pcbs := <[currentProcessIndex := dispatch timeQuantum currentProcess]> (pcbs st);
              readyQueue := rest; currentTime := t; cout := cout st |}
  | [] =>
      Some {| pcbs := pcbs st; readyQueue := []; currentTime := t; cout := cout st |}
  end.

(** One iteration of the [while] body. *)
Definition tick (timeQuantum : Z) (st : sim) : option sim :=
  st1 ← before_print timeQuantum st;
  match readyQueue st with
  | currentProcessIndex :: _ => requeue currentProcessIndex (emit st1)
  | [] => Some (emit st1)
  end.

(** The [while (!allProcessesTerminated(pcbs))] loop, with a bound on the
    number of iterations; [None] when the bound is reached. *)
Fixpoint loop (fuel : nat) (timeQuantum : Z) (st : sim) : option sim :=
  match fuel with
  | O => None
  | S fuel' =>
      if allProcessesTerminated (pcbs st) then Some st
      else st' ← tick timeQuantum st; loop fuel' timeQuantum st'
  end.

(** The state on entry to the loop: every index pushed in order. *)
Definition initial (ps : list PCB) : sim :=
  {| pcbs := ps; readyQueue := seq 0 (length ps); currentTime := 0; cout := [] |}.

Definition kernelSimulator (fuel : nat) (ps : list PCB) (timeQuantum : Z)
  : option (list PCB * list string) :=
  st ← loop fuel timeQuantum (initial ps);
  Some (pcbs st, cout st).

(** ** Standard input

    Standard input is a string of characters.  An extraction
    [std::cin >> x] into an [int] skips leading whitespace, reads an
    optional sign and then the longest run of decimal digits, and leaves
    everything after the digits in the stream; it fails when there is no
    digit to read (in particular at the end of the input) or when the value
    does not fit in an [int].  So ["3abc"] is read as 3 with ["abc"] left for
    the next extraction, which fails. *)

Definition is_space (c : ascii) : bool :=
  match c with
  | " "%char | "009"%char | "010"%char | "011"%char | "012"%char | "013"%char => true
  | _ => false
  end.

Fixpoint skip_ws (s : string) : string :=
  match s with
  | String c s' => if is_space c then skip_ws s' else s
  | EmptyString => EmptyString
  end.

Definition digit_of (c : ascii) : option (Decimal.uint → Decimal.uint) :=
  match c with
  | "0"%char => Some Decimal.D0 | "1"%char => Some Decimal.D1
  | "2"%char => Some Decimal.D2 | "3"%char => Some Decimal.D3
  | "4"%char => Some Decimal.D4 | "5"%char => Some Decimal.D5
  | "6"%char => Some Decimal.D6 | "7"%char => Some Decimal.D7
  | "8"%char => Some Decimal.D8 | "9"%char => Some Decimal.D9
  | _ => None
  end.

(** The longest run of digits at the front of [s], and what follows it. *)
Fixpoint read_digits (s : string) : Decimal.uint * string :=
  match s with
  | String c s' =>
      match digit_of c with
      | Some digit => let '(d, rest) := read_digits s' in (digit d, rest)
      | None => (Decimal.Nil, s)
      end
  | EmptyString => (Decimal.Nil, EmptyString)
  end.

(** The digits after the optional sign: there must be one, and the signed
    value must fit in an [int]. *)
Definition read_number (negative : bool) (s : string) : option (Z * string) :=
  let '(d, rest) := read_digits s in
  match d with
  | Decimal.Nil => None
  | _ =>
      let v := Z.of_uint d in
      let z := if negative then - v else v in
      if in_int_range z then Some (z, rest) else None
  end.

(** [std::cin >> x] for an [int] [x]: the value read and the rest of the
    stream, or [None] when the extraction fails. *)
Definition cin_extract (s : string) : option (Z * string) :=
  match skip_ws s with
  | String c r =>
      if Ascii.eqb c "-" then read_number true r
      else if Ascii.eqb c "+" then read_number false r
      else read_number false (String c r)
  | EmptyString => None
  end.

(** ** main

    The input seen through its extractions: a token [Int z] stands for a
    piece of input from which one extraction reads [z], [Malformed] (like
    the end of the list) for input on which the extraction fails.  The
    token sequence of a stream is [lex] below; [main] on strings
    ([main_stdin]) is [main] on the tokens of the stream
    (lemma [main_stdin_lex]). *)

Inductive token := Int (z : Z) | Malformed.

Definition extract_int (input : list token) : option (Z * list token) :=
  match input with
  | Int z :: rest => if in_int_range z then Some (z, rest) else None
  | _ => None
  end.

Record outcome := mkOutcome {
  exit_status : Z;
  stdout : list string;
  stderr : list string
}.

Definition failure (diagnostic : string) : outcome :=
  {| exit_status := 1; stdout := []; stderr := [diagnostic] |}.

(** The [for] loop of [main] (lines 109-129), [n] iterations left. *)
Fixpoint read_processes (n : nat) (input : list token) (ps : list PCB) (pids : gset Z)
  : string + list PCB :=
  match n with
  | O => inr ps
  | S n' =>
      match extract_int input with
      | None => inl "Error: Invalid input format for process data"%string
      | Some (pid, input1) =>
          match extract_int input1 with
          | None => inl "Error: Invalid input format for process data"%string
          | Some (work, input2) =>
              if work <=? 0 then
                inl ("Error: Invalid work units for PID " +:+ show_int pid)
              else if bool_decide (pid ∈ pids) then
                inl ("Error: Duplicate PID " +:+ show_int pid +:+ " detected")
              else read_processes n' input2 (ps ++ [new_PCB pid work]) ({[pid]} ∪ pids)
          end
      end
  end.

Definition main (fuel : nat) (input : list token) : option outcome :=
  match extract_int input with
  | None => Some (failure "Error: Invalid input for number of processes")
  | Some (numProcesses, rest) =>
      if numProcesses <=? 0 then Some (failure "Error: Invalid number of processes")
      else
        match read_processes (Z.to_nat numProcesses) rest [] ∅ with
        | inl diagnostic => Some (failure diagnostic)
        | inr ps =>
            let timeQuantum := 2 in
            '(_, lines) ← kernelSimulator fuel ps timeQuantum;
            Some {| exit_status := 0;
                    stdout := lines ++ ["All processes completed."%string];
                    stderr := [] |}
        end
  end.

(** [main] on the characters of standard input: lines 109-129 and 95-136
    with [std::cin >> x] as [cin_extract]. *)
Fixpoint read_processes_stdin (n : nat) (input : string) (ps : list PCB) (pids : gset Z)
  : string + list PCB :=
  match n with
  | O => inr ps
  | S n' =>
      match cin_extract input with
      | None => inl "Error: Invalid input format for process data"%string
      | Some (pid, input1) =>
          match cin_extract input1 with
          | None => inl "Error: Invalid input format for process data"%string
          | Some (work, input2) =>
              if work <=? 0 then
                inl ("Error: Invalid work units for PID " +:+ show_int pid)
              else if bool_decide (pid ∈ pids) then
                inl ("Error: Duplicate PID " +:+ show_int pid +:+ " detected")
              else read_processes_stdin n' input2 (ps ++ [new_PCB pid work])
                                        ({[pid]} ∪ pids)
          end
      end
  end.

Definition main_stdin (fuel : nat) (input : string) : option outcome :=
  match cin_extract input with
  | None => Some (failure "Error: Invalid input for number of processes")
  | Some (numProcesses, rest) =>
      if numProcesses <=? 0 then Some (failure "Error: Invalid number of processes")
      else
        match read_processes_stdin (Z.to_nat numProcesses) rest [] ∅ with
        | inl diagnostic => Some (failure diagnostic)
        | inr ps =>
            let timeQuantum := 2 in
            '(_, lines) ← kernelSimulator fuel ps timeQuantum;
            Some {| exit_status := 0;
                    stdout := lines ++ ["All processes completed."%string];
                    stderr := [] |}
        end
  end.

(** The tokens of a stream: what the successive extractions read, up to
    and including the first one that fails.  Every successful extraction
    consumes a character, so the length of the stream bounds their
    number. *)
Fixpoint lex_fuel (n : nat) (s : string) : list token :=
  match n with
  | O => [Malformed]
  | S n' =>
      match cin_extract s with
      | Some (z, rest) => Int z :: lex_fuel n' rest
      | None => [Malformed]
      end
  end.

Definition lex (s : string) : list token := lex_fuel (String.length s) s.

(** ** Observations on a tick

    What the loop body does in a state, read off the definitions above:
    the index it pops, the vector it hands to [printProcessStates], and
    the index it pushes back. *)

Definition dispatched (st : sim) : option nat := head (readyQueue st).

Definition observed (timeQuantum : Z) (st : sim) : option (list PCB) :=
  pcbs <$> before_print timeQuantum st.

Definition requeued (timeQuantum : Z) (st : sim) : option nat :=
  i ← dispatched st;
  p ← pcbs st !! i;
  if pc (dispatch timeQuantum p) <? total_work (dispatch timeQuantum p)
  then Some i else None.

(** One iteration of the loop as a step relation: the completion check
    fails and the body runs. *)
Inductive step (timeQuantum : Z) : sim → sim → Prop :=
| step_tick st st' :
    allProcessesTerminated (pcbs st) = false →
    tick timeQuantum st = Some st' →
    step timeQuantum st st'.

(** [run q st heads st']: the loop goes from [st] to [st'], and [heads]
    lists, in order, the states in which the body was entered. *)
Inductive run (timeQuantum : Z) : sim → list sim → sim → Prop :=
| run_here st : run timeQuantum st [] st
| run_tick st st1 heads st2 :
    step timeQuantum st st1 →
    run timeQuantum st1 heads st2 →
    run timeQuantum st (st :: heads) st2.

Definition dispatch_log (heads : list sim) : list nat := omap dispatched heads.

Definition enqueue_log (timeQuantum : Z) (heads : list sim) : list nat :=
  omap (requeued timeQuantum) heads.

(** Number of ticks on which index [i] is dispatched. *)
Definition dispatch_count (i : nat) (heads : list sim) : nat :=
  length (filter (λ j, j = i) (dispatch_log heads)).


(** ** Valid inputs *)

(** An entry of the input: the pair (pid, work) read by one iteration of
    the [for] loop of [main]. *)
Abbreviation entry := (Z * Z)%type.

(** The vector [main] hands to [kernelSimulator] for these entries. *)
Definition pcbs_of (es : list entry) : list PCB := map (λ e, new_PCB e.1 e.2) es.

(** The token sequence that carries [es]: the count, then the pairs. *)
Definition tokens_of (es : list entry) : list token :=
  Int (Z.of_nat (length es)) :: flat_map (λ e, [Int e.1; Int e.2]) es.

(** The work units of every entry are positive and fit in an [int]. *)
Definition valid_work (es : list entry) : Prop :=
  Forall (λ e, 0 < e.2 <= INT_MAX) es.

(** A valid input: at least one process, every pid an [int], positive
    work, pids pairwise distinct. *)
Definition valid_entries (es : list entry) : Prop :=
  (0 < length es)%nat ∧ Z.of_nat (length es) <= INT_MAX ∧
  Forall (λ e, INT_MIN <= e.1 <= INT_MAX) es ∧
  valid_work es ∧ NoDup (es.*1).

(** The record of an entry once its process has completed. *)
Definition completed (e : entry) : PCB :=
  {| pid := e.1; state := "Terminated"; pc := e.2; total_work := e.2 |}.

(** [ceil (w / 2)] in integer arithmetic. *)
Definition ceil_half (w : Z) : Z := (w + 1) / 2.

(** ** The loop invariant *)

(** Ticks a record still needs with quantum 2. *)
Definition remaining (p : PCB) : nat := Z.to_nat (ceil_half (total_work p - pc p)).

Definition ticks_needed (ps : list PCB) : nat := sum_list (remaining <$> ps).

(** A record at index [i] with respect to its entry and the queue: it is
    queued, Ready and unfinished, or it is out of the queue, Terminated
    and finished. *)
Definition rec_inv (queue : list nat) (i : nat) (e : entry) (p : PCB) : Prop :=
  pid p = e.1 ∧ total_work p = e.2 ∧ 0 <= pc p ∧
  ((i ∈ queue ∧ state p = "Ready"%string ∧ pc p < total_work p) ∨
   ((i ∉ queue) ∧ state p = "Terminated"%string ∧ pc p = total_work p)).

Definition Inv (es : list entry) (st : sim) : Prop :=
  NoDup (readyQueue st) ∧
  length (pcbs st) = length es ∧
  (∀ i e p, es !! i = Some e → pcbs st !! i = Some p → rec_inv (readyQueue st) i e p) ∧
  (∀ i, i ∈ readyQueue st → (i < length es)%nat).

(** The state of the loop after some iterations from the entry state. *)
Definition reachable (timeQuantum : Z) (es : list entry) (st : sim) : Prop :=
  rtc (step timeQuantum) (initial (pcbs_of es)) st.

(** The data-model invariant of a process record. *)
Definition record_ok (p : PCB) : Prop :=
  (state p = "Terminated"%string ↔ pc p = total_work p) ∧ 0 <= pc p <= total_work p.

(** The closed form of a tick, used to state what [tick] computes on a
    state of the invariant: [advanced p] is the dispatched record once the
    body has run, [after_tick st i rest p] the whole state. *)
Definition advanced (p : PCB) : PCB :=
  {| pid := pid p;
     state := if pc p + 2 <? total_work p then "Ready" else "Terminated";
     pc := Z.min (pc p + 2) (total_work p);
     total_work := total_work p |}.

Definition after_tick (st : sim) (i : nat) (rest : list nat) (p : PCB) : sim :=
  {| pcbs := <[i := advanced p]> (pcbs st);
     readyQueue := if pc p + 2 <? total_work p then rest ++ [i] else rest;
     currentTime := wrap_int (currentTime st + 1);
     cout := cout st ++
             printProcessStates (<[i := dispatch 2 p]> (pcbs st))
                                (wrap_int (currentTime st + 1)) |}.

(** Scenario A of the specification: two processes, (pid 1, work 3) and
    (pid 2, work 2). *)
Definition scenario_A : list entry := [(1, 3); (2, 2)].

(** Two records that agree on everything the scheduler reads or writes
    (state, progress and total work), whatever their pids. *)
Definition same_progress (p p' : PCB) : Prop :=
  state p = state p' ∧ pc p = pc p' ∧ total_work p = total_work p'.

(** Two simulator states that agree up to the pids of the records. *)
Definition same_schedule (st st' : sim) : Prop :=
  readyQueue st = readyQueue st' ∧ Forall2 same_progress (pcbs st) (pcbs st').

(** The single-transition property between two consecutive ticks, as the
    specification words it: [cur] is the state in which a tick starts,
    [prev] the state in which the tick before it started.  The dispatched
    record is the one record whose state differs between the two traces,
    and every other record is the same in both. *)
Definition one_transition_per_tick (timeQuantum : Z) (prev cur : sim) : Prop :=
  ∃ i tr_prev tr_cur,
    dispatched cur = Some i ∧
    observed timeQuantum prev = Some tr_prev ∧
    observed timeQuantum cur = Some tr_cur ∧
    (∀ j p p', tr_prev !! j = Some p → tr_cur !! j = Some p' →
               (state p ≠ state p' ↔ j = i)) ∧
    (∀ j, j ≠ i → tr_cur !! j = tr_prev !! j).

(** Scenario A after its first tick. *)
Definition scenario_A_tick1 : sim :=
  {| pcbs := [mkPCB 1 "Ready" 2 3; mkPCB 2 "Ready" 0 2];
     readyQueue := [1; 0]%nat;
     currentTime := 1;
     cout := ["Interrupt 1:"; "PID 1: Running, at pc 2"; "PID 2: Ready, at pc 0"]%string |}.

(** Scenario A after its second tick. *)
Definition scenario_A_tick2 : sim :=
  {| pcbs := [mkPCB 1 "Ready" 2 3; mkPCB 2 "Terminated" 2 2];
     readyQueue := [0]%nat;
     currentTime := 2;
     cout := ["Interrupt 1:"; "PID 1: Running, at pc 2"; "PID 2: Ready, at pc 0";
              "Interrupt 2:"; "PID 1: Ready, at pc 2"; "PID 2: Terminated, at pc 2"]%string |}.

(** Scenario A on exit from the loop. *)
Definition scenario_A_tick3 : sim :=
  {| pcbs := [mkPCB 1 "Terminated" 3 3; mkPCB 2 "Terminated" 2 2];
     readyQueue := [];
     currentTime := 3;
     cout := ["Interrupt 1:"; "PID 1: Running, at pc 2"; "PID 2: Ready, at pc 0";
              "Interrupt 2:"; "PID 1: Ready, at pc 2"; "PID 2: Terminated, at pc 2";
              "Interrupt 3:"; "PID 1: Terminated, at pc 3";
              "PID 2: Terminated, at pc 2"]%string |}.

(** ** Ingestion errors, as the specification lists them

    The tokens are addressed by position: the count is token 0, the pid
    and the work of entry [i] (counting from 0) are tokens [1 + 2 i] and
    [2 + 2 i].  A token is well formed when it is present and is an integer
    that fits in an [int]. *)

Definition token_int (input : list token) (k : nat) : option Z :=
  match input !! k with
  | Some (Int z) => if in_int_range z then Some z else None
  | _ => None
  end.

Definition count_of (input : list token) : option Z := token_int input 0.
Definition pid_at (input : list token) (i : nat) : option Z := token_int input (1 + 2 * i).
Definition work_at (input : list token) (i : nat) : option Z := token_int input (S (1 + 2 * i)).

Inductive ingestion_error :=
| MalformedCountError
| InvalidCountError
| MalformedEntryError
| InvalidWorkError
| DuplicatePidError.

Definition has_error (input : list token) (err : ingestion_error) : Prop :=
  match err with
  | MalformedCountError => count_of input = None
  | InvalidCountError => ∃ n, count_of input = Some n ∧ n <= 0
  | MalformedEntryError =>
      ∃ n i, count_of input = Some n ∧ Z.of_nat i < n ∧
             (pid_at input i = None ∨ work_at input i = None)
  | InvalidWorkError =>
      ∃ n i w, count_of input = Some n ∧ Z.of_nat i < n ∧
               work_at input i = Some w ∧ w <= 0
  | DuplicatePidError =>
      ∃ n i j v, count_of input = Some n ∧ Z.of_nat i < n ∧ (j < i)%nat ∧
                 pid_at input i = Some v ∧ pid_at input j = Some v
  end.

Definition rejected (input : list token) : Prop := ∃ err, has_error input err.

(** What can be wrong with entry [i], in the order [main] checks it. *)
Definition entry_error (input : list token) (i : nat) : Prop :=
  pid_at input i = None ∨ work_at input i = None ∨
  (∃ w, work_at input i = Some w ∧ w <= 0) ∨
  (∃ j v, (j < i)%nat ∧ pid_at input i = Some v ∧ pid_at input j = Some v).

(** The outcome of a completed simulation that wrote [lines]. *)
Definition success (lines : list string) : outcome :=
  {| exit_status := 0;
     stdout := lines ++ ["All processes completed."%string];
     stderr := [] |}.

(** Two processes whose pids are zero and negative. *)
Definition low_pids : list entry := [(0, 1); (-5, 3)].


(** Every index of the vector is in the queue or holds a Terminated
    record, and the queue holds indices of the vector only. *)
Definition queue_covers (st : sim) : Prop :=
  (∀ i p, pcbs st !! i = Some p → i ∈ readyQueue st ∨ state p = "Terminated"%string) ∧
  (∀ i, i ∈ readyQueue st → (i < length (pcbs st))%nat).

(** A vector on which a quantum of 0 makes no progress: it is not empty
    and every record is unfinished and not Terminated. *)
Definition stalled (ps : list PCB) : Prop :=
  ps ≠ [] ∧
  Forall (λ p, state p ≠ "Terminated"%string ∧
               0 <= pc p ∧ pc p < total_work p ∧ total_work p <= INT_MAX) ps.

(** ** Any positive quantum *)

(** [ceil (w / q)] in integer arithmetic, for [q > 0]. *)
Definition ceil_div (w q : Z) : Z := (w + q - 1) / q.

(** Ticks a record still needs with quantum [q]. *)
Definition remaining_q (q : Z) (p : PCB) : nat :=
  Z.to_nat (ceil_div (total_work p - pc p) q).

Definition ticks_needed_q (q : Z) (ps : list PCB) : nat :=
  sum_list (remaining_q q <$> ps).

(** The closed form of a tick with quantum [q]. *)
Definition advanced_q (q : Z) (p : PCB) : PCB :=
  {| pid := pid p;
     state := if pc p + q <? total_work p then "Ready" else "Terminated";
     pc := Z.min (pc p + q) (total_work p);
     total_work := total_work p |}.

Definition after_tick_q (q : Z) (st : sim) (i : nat) (rest : list nat) (p : PCB) : sim :=
  {| pcbs := <[i := advanced_q q p]> (pcbs st);
     readyQueue := if pc p + q <? total_work p then rest ++ [i] else rest;
     currentTime := wrap_int (currentTime st + 1);
     cout := cout st ++
             printProcessStates (<[i := dispatch q p]> (pcbs st))
                                (wrap_int (currentTime st + 1)) |}.

(** ** The input as the specification describes it

    Whitespace-delimited tokens, each a well-formed integer or not: a word
    is well formed when an extraction reads all of it. *)

Fixpoint take_word (s : string) : string * string :=
  match s with
  | String c s' =>
      if is_space c then (EmptyString, s)
      else let '(w, rest) := take_word s' in (String c w, rest)
  | EmptyString => (EmptyString, EmptyString)
  end.

Fixpoint words_fuel (n : nat) (s : string) : list string :=
  match n with
  | O => []
  | S n' =>
      match skip_ws s with
      | EmptyString => []
      | s1 => let '(w, rest) := take_word s1 in w :: words_fuel n' rest
      end
  end.

Definition words (s : string) : list string := words_fuel (String.length s) s.

Definition word_token (w : string) : token :=
  match cin_extract w with
  | Some (z, EmptyString) => Int z
  | _ => Malformed
  end.

Definition spec_tokens (s : string) : list token := word_token <$> words s.

(** Ingestion fails exactly on the inputs that show one of the five errors
    in their whitespace-delimited tokens. *)
Definition ingestion_claim (s : string) : Prop :=
  rejected (spec_tokens s) ↔ ∃ d, ∀ fuel, main_stdin fuel s = Some (failure d).

(** ** Input files

    The text of an input that carries the entries [es]: the count, then one
    line per entry with the pid and the work separated by a space. *)

Definition newline : string := String "010"%char EmptyString.

Fixpoint entries_text (es : list entry) : string :=
  match es with
  | [] => newline
  | e :: es' =>
      newline +:+ show_int e.1 +:+ " " +:+ show_int e.2 +:+ entries_text es'
  end.

Definition input_text (es : list entry) : string :=
  show_int (Z.of_nat (length es)) +:+ entries_text es.

(** The stream does not go on with a digit. *)
Definition no_digit_ahead (s : string) : Prop :=
  match s with
  | String c _ => digit_of c = None
  | EmptyString => True
  end.
(** ** Basic facts *)

Lemma wrap_int_id z : INT_MIN <= z <= INT_MAX → wrap_int z = z.
Proof.
  unfold INT_MIN, INT_MAX, wrap_int. intros Hz.
  rewrite Z.mod_small; lia.
Qed.

Lemma in_int_range_spec z : in_int_range z = true ↔ INT_MIN <= z <= INT_MAX.
Proof. unfold in_int_range. rewrite andb_true_iff, !Z.leb_le. tauto. Qed.

Lemma allProcessesTerminated_Forall ps :
  allProcessesTerminated ps = true ↔ Forall (λ p, state p = "Terminated"%string) ps.
Proof.
  induction ps as [|p ps IH]; simpl.
  - split; [constructor | reflexivity].
  - destruct (String.eqb_spec (state p) "Terminated") as [Heq|Hne]; simpl.
    + rewrite IH. split; [by constructor | by inversion 1].
    + split; [discriminate | inversion 1; contradiction].
Qed.

Lemma allProcessesTerminated_false ps :
  allProcessesTerminated ps = false →
  ∃ i p, ps !! i = Some p ∧ state p ≠ "Terminated"%string.
Proof.
  induction ps as [|p ps IH]; simpl; [discriminate|].
  destruct (String.eqb_spec (state p) "Terminated") as [Heq|Hne]; simpl.
  - intros H. destruct (IH H) as (i & q & Hq & Hs). by exists (S i), q.
  - intros _. by exists 0%nat, p.
Qed.

(** The effect of a dispatch on a record that still has work to do. *)
Lemma dispatch_unfinished p :
  0 <= pc p → pc p < total_work p → total_work p <= INT_MAX →
  dispatch 2 p =
    {| pid := pid p;
       state := if pc p + 2 <? total_work p then "Running" else "Terminated";
       pc := Z.min (pc p + 2) (total_work p);
       total_work := total_work p |}.
Proof.
  intros H0 Hlt Hmax. unfold dispatch, set_pc, set_state; simpl.
  unfold INT_MAX in Hmax.
  rewrite (wrap_int_id (total_work p - pc p)) by (unfold INT_MIN, INT_MAX; lia).
  rewrite wrap_int_id by (unfold INT_MIN, INT_MAX; lia).
  replace (pc p + Z.min 2 (total_work p - pc p)) with (Z.min (pc p + 2) (total_work p)) by lia.
  destruct (Z.ltb_spec (pc p + 2) (total_work p)) as [Hl|Hg];
    destruct (Z.geb_spec (Z.min (pc p + 2) (total_work p)) (total_work p)); simpl;
    try reflexivity; lia.
Qed.

(** ** One tick from a state with a non-empty queue *)

Lemma tick_head st i rest p :
  readyQueue st = i :: rest → pcbs st !! i = Some p →
  0 <= pc p → pc p < total_work p → total_work p <= INT_MAX →
  tick 2 st = Some (after_tick st i rest p).
Proof.
  intros Hq Hp H0 Hlt Hmax.
  assert (Hi : (i < length (pcbs st))%nat) by (eapply lookup_lt_Some; eauto).
  unfold after_tick, advanced, tick, before_print. rewrite Hq, Hp. simpl.
  unfold requeue, emit. simpl.
  rewrite list_lookup_insert_eq by done. simpl.
  rewrite (dispatch_unfinished p) by done. simpl.
  destruct (Z.ltb_spec (pc p + 2) (total_work p)) as [Hl|Hg].
  - rewrite (proj2 (Z.ltb_lt _ _)) by lia.
    rewrite list_insert_insert_eq. unfold set_state. simpl. reflexivity.
  - rewrite (proj2 (Z.ltb_ge _ _)) by lia. reflexivity.
Qed.

(** ** The invariant holds along the loop *)

Section scheduler.
Variable es : list entry.
Hypothesis Hwork : valid_work es.

Lemma work_bounds i e : es !! i = Some e → 0 < e.2 <= INT_MAX.
Proof.
  intros He. unfold valid_work in Hwork. rewrite Forall_lookup in Hwork.
  exact (Hwork i e He).
Qed.

Lemma Inv_initial : Inv es (initial (pcbs_of es)).
Proof.
  unfold Inv, initial, pcbs_of; simpl. rewrite length_map.
  split; [apply NoDup_seq|]. split; [done|]. split.
  - intros i e p He Hp. rewrite list_lookup_fmap, He in Hp.
    inversion Hp; subst; clear Hp.
    pose proof (work_bounds i e He) as Hb.
    unfold rec_inv, new_PCB; simpl. repeat split; try lia.
    left. repeat split; try lia.
    apply elem_of_seq. apply lookup_lt_Some in He. lia.
  - intros i Hi. apply elem_of_seq in Hi. lia.
Qed.

Lemma Inv_head st i rest :
  Inv es st → readyQueue st = i :: rest →
  ∃ e p, es !! i = Some e ∧ pcbs st !! i = Some p ∧
         pid p = e.1 ∧ total_work p = e.2 ∧ state p = "Ready"%string ∧
         0 <= pc p ∧ pc p < total_work p ∧ total_work p <= INT_MAX.
Proof.
  intros (Hnd & Hlen & Hrec & Hq) Hst.
  assert (Hin : i ∈ readyQueue st) by (rewrite Hst; left).
  pose proof (Hq i Hin) as Hlt.
  destruct (lookup_lt_is_Some_2 es i Hlt) as [e He].
  destruct (lookup_lt_is_Some_2 (pcbs st) i) as [p Hp]; [lia|].
  destruct (Hrec i e p He Hp) as (Hpid & Htw & H0 & [(_ & Hs & Hpc)|(Hn & _)]);
    [|contradiction].
  pose proof (work_bounds i e He).
  exists e, p. repeat split; try done; lia.
Qed.

Lemma Inv_queue_nonempty st :
  Inv es st → allProcessesTerminated (pcbs st) = false → readyQueue st ≠ [].
Proof.
  intros (Hnd & Hlen & Hrec & Hq) Hall Hnil.
  destruct (allProcessesTerminated_false _ Hall) as (i & p & Hp & Hs).
  destruct (lookup_lt_is_Some_2 es i) as [e He].
  { apply lookup_lt_Some in Hp. lia. }
  destruct (Hrec i e p He Hp) as (_ & _ & _ & [(Hin & _)|(_ & Ht & _)]).
  - rewrite Hnil in Hin. by apply not_elem_of_nil in Hin.
  - contradiction.
Qed.

Lemma Inv_step st st' : Inv es st → step 2 st st' → Inv es st'.
Proof.
  intros HI Hstep. destruct Hstep as [st st' Hall Htick].
  destruct (readyQueue st) as [|i rest] eqn:Hst.
  { exfalso. by apply (Inv_queue_nonempty st). }
  destruct (Inv_head st i rest HI Hst)
    as (e & p & He & Hp & Hpid & Htw & Hs & H0 & Hlt & Hmax).
  rewrite (tick_head st i rest p) in Htick by done.
  inversion Htick; subst st'; clear Htick.
  destruct HI as (Hnd & Hlen & Hrec & Hq). rewrite Hst in Hnd, Hrec, Hq.
  unfold after_tick, advanced.
  apply NoDup_cons in Hnd as [Hni Hnd].
  unfold Inv; simpl. rewrite length_insert.
  assert (Hi : (i < length (pcbs st))%nat) by (eapply lookup_lt_Some; eauto).
  split; [|split; [done|split]].
  - destruct (pc p + 2 <? total_work p); [|done].
    apply NoDup_app. split; [done|]. split; [|apply NoDup_singleton].
    intros x Hx Hx'. apply list_elem_of_singleton in Hx'. by subst.
  - intros j e' q He' Hq'.
    destruct (decide (j = i)) as [->|Hne].
    + rewrite list_lookup_insert_eq in Hq' by done.
      inversion Hq'; subst q; clear Hq'.
      assert (e' = e) by congruence. subst e'.
      unfold rec_inv; simpl. repeat split; try done; try lia.
      destruct (Z.ltb_spec (pc p + 2) (total_work p)).
      * left. repeat split; [|lia]. apply elem_of_app. right. left.
      * right. repeat split; [done|lia].
    + rewrite list_lookup_insert_ne in Hq' by done.
      destruct (Hrec j e' q He' Hq') as (Hpid' & Htw' & H0' & Hcase).
      unfold rec_inv. repeat split; try done.
      assert (Hiff : j ∈ i :: rest ↔ j ∈ rest).
      { rewrite elem_of_cons. split; [intros [Heq|Hr]; [congruence|done] | by right]. }
      destruct Hcase as [(Hin & Hs' & Hl')|(Hnin & Hs' & Hl')].
      * left. repeat split; try done.
        apply Hiff in Hin.
        destruct (pc p + 2 <? total_work p); [apply elem_of_app; by left|done].
      * right. repeat split; try done.
        rewrite Hiff in Hnin.
        destruct (pc p + 2 <? total_work p); [|done].
        rewrite elem_of_app, list_elem_of_singleton.
        intros [Hr|Heq]; [contradiction|congruence].
  - intros j Hj. apply Hq.
    destruct (pc p + 2 <? total_work p).
    + apply elem_of_app in Hj as [Hj|Hj]; [by right|].
      apply list_elem_of_singleton in Hj. subst. left.
    + by right.
Qed.

Lemma Inv_reachable st : reachable 2 es st → Inv es st.
Proof.
  unfold reachable. revert st.
  apply rtc_ind_r; [apply Inv_initial|].
  intros y z _ Hstep HI. eapply Inv_step; eauto.
Qed.

(** Every iteration of the body is the closed form [after_tick] on the
    head of the queue. *)
Lemma step_after st st' :
  Inv es st → step 2 st st' →
  ∃ i rest e p,
    readyQueue st = i :: rest ∧ es !! i = Some e ∧ pcbs st !! i = Some p ∧
    pid p = e.1 ∧ total_work p = e.2 ∧ state p = "Ready"%string ∧
    0 <= pc p ∧ pc p < total_work p ∧ total_work p <= INT_MAX ∧
    st' = after_tick st i rest p.
Proof.
  intros HI Hstep. destruct Hstep as [st st' Hall Htick].
  destruct (readyQueue st) as [|i rest] eqn:Hst.
  { exfalso. by apply (Inv_queue_nonempty st). }
  destruct (Inv_head st i rest HI Hst)
    as (e & p & He & Hp & Hpid & Htw & Hs & H0 & Hlt & Hmax).
  rewrite (tick_head st i rest p) in Htick by done.
  inversion Htick; subst st'.
  exists i, rest, e, p. repeat split; done.
Qed.

Lemma step_enabled st :
  Inv es st → allProcessesTerminated (pcbs st) = false → ∃ st', step 2 st st'.
Proof.
  intros HI Hall.
  destruct (readyQueue st) as [|i rest] eqn:Hst.
  { exfalso. by apply (Inv_queue_nonempty st). }
  destruct (Inv_head st i rest HI Hst)
    as (e & p & He & Hp & Hpid & Htw & Hs & H0 & Hlt & Hmax).
  exists (after_tick st i rest p). constructor; [done|].
  by apply tick_head.
Qed.

(** *** The measure: ticks still needed *)

Lemma remaining_advanced p :
  0 <= pc p → pc p < total_work p → remaining p = S (remaining (advanced p)).
Proof.
  intros H0 Hlt. unfold remaining, advanced, ceil_half; simpl.
  rewrite <- Z2Nat.inj_succ.
  - f_equal. destruct (Z.min_spec (pc p + 2) (total_work p)) as [[? ->]|[? ->]];
      Z.div_mod_to_equations; lia.
  - apply Z.div_pos; lia.
Qed.

Lemma ticks_needed_insert ps i p p' :
  ps !! i = Some p →
  (ticks_needed (<[i := p']> ps) + remaining p = ticks_needed ps + remaining p')%nat.
Proof.
  revert i. induction ps as [|q ps IH]; intros [|i] Hp; simpl in *; try discriminate.
  - inversion Hp; subst. unfold ticks_needed; simpl. lia.
  - specialize (IH i Hp). unfold ticks_needed, fmap in *; simpl in *. lia.
Qed.

Lemma ticks_needed_after st i rest p :
  pcbs st !! i = Some p → 0 <= pc p → pc p < total_work p →
  ticks_needed (pcbs st) = S (ticks_needed (pcbs (after_tick st i rest p))).
Proof.
  intros Hp H0 Hlt. simpl.
  pose proof (ticks_needed_insert (pcbs st) i p (advanced p) Hp).
  pose proof (remaining_advanced p H0 Hlt). lia.
Qed.

(** On exit from the loop the vector holds the completed records. *)
Lemma Inv_terminated st :
  Inv es st → allProcessesTerminated (pcbs st) = true →
  pcbs st = completed <$> es.
Proof.
  intros (Hnd & Hlen & Hrec & Hq) Hall.
  apply allProcessesTerminated_Forall in Hall. rewrite Forall_lookup in Hall.
  apply list_eq. intros i. rewrite list_lookup_fmap.
  destruct (es !! i) as [e|] eqn:He; simpl.
  - destruct (lookup_lt_is_Some_2 (pcbs st) i) as [p Hp].
    { apply lookup_lt_Some in He. lia. }
    rewrite Hp. f_equal.
    destruct (Hrec i e p He Hp) as (Hpid & Htw & H0 & [(_ & Hs & _)|(_ & Hs & Hpc)]).
    + pose proof (Hall i p Hp) as Ht. rewrite Hs in Ht. discriminate.
    + destruct p; unfold completed; simpl in *. congruence.
  - apply lookup_ge_None. apply lookup_ge_None in He. lia.
Qed.

Lemma loop_terminates fuel : ∀ st,
  Inv es st → (ticks_needed (pcbs st) < fuel)%nat →
  ∃ st', loop fuel 2 st = Some st' ∧ rtc (step 2) st st' ∧
         allProcessesTerminated (pcbs st') = true.
Proof.
  induction fuel as [|fuel IH]; intros st HI Hfuel; [lia|].
  simpl. destruct (allProcessesTerminated (pcbs st)) eqn:Hall.
  - exists st. repeat split; [apply rtc_refl|done].
  - destruct (step_enabled st HI Hall) as [st1 Hstep].
    pose proof (Inv_step st st1 HI Hstep) as HI1.
    destruct (step_after st st1 HI Hstep)
      as (i & rest & e & p & Hst & He & Hp & _ & _ & _ & H0 & Hlt & _ & ->).
    pose proof (ticks_needed_after st i rest p Hp H0 Hlt) as Hm.
    destruct Hstep as [st st1 _ Htick]. rewrite Htick. simpl.
    destruct (IH _ HI1) as (st' & Hloop & Hrtc & Hdone); [lia|].
    exists st'. repeat split; try done.
    eapply rtc_l; [|exact Hrtc]. constructor; done.
Qed.

(** *** Runs *)

Lemma Inv_run st heads st' : Inv es st → run 2 st heads st' → Inv es st'.
Proof.
  intros HI Hrun. induction Hrun as [st|st st1 heads st2 Hstep Hrun IH]; [done|].
  apply IH. eapply Inv_step; eauto.
Qed.

Lemma dispatch_count_cons i st heads j :
  dispatched st = Some j →
  dispatch_count i (st :: heads) =
    ((if decide (j = i) then 1 else 0) + dispatch_count i heads)%nat.
Proof.
  intros Hd. unfold dispatch_count, dispatch_log. simpl. rewrite Hd.
  rewrite filter_cons. destruct (decide (j = i)); reflexivity.
Qed.

(** Over a run that reaches the exit of the loop, each index is
    dispatched as many times as its record needed ticks at the start. *)
Lemma dispatch_count_run st heads st' :
  run 2 st heads st' → Inv es st → allProcessesTerminated (pcbs st') = true →
  ∀ i p, pcbs st !! i = Some p → dispatch_count i heads = remaining p.
Proof.
  intros Hrun. induction Hrun as [st|st st1 heads st2 Hstep Hrun IH];
    intros HI Hdone i p Hp.
  - rewrite (Inv_terminated st HI Hdone) in Hp.
    rewrite list_lookup_fmap in Hp.
    destruct (es !! i) as [e|]; simpl in Hp; [|discriminate].
    inversion Hp; subst p.
    unfold dispatch_count, remaining, completed, ceil_half; simpl.
    rewrite Z.sub_diag. reflexivity.
  - pose proof (Inv_step st st1 HI Hstep) as HI1.
    destruct (step_after st st1 HI Hstep)
      as (j & rest & e & q & Hst & He & Hq & _ & _ & _ & H0 & Hlt & _ & ->).
    assert (Hj : (j < length (pcbs st))%nat) by (eapply lookup_lt_Some; eauto).
    rewrite (dispatch_count_cons i st heads j) by (unfold dispatched; by rewrite Hst).
    destruct (decide (j = i)) as [->|Hne].
    + assert (q = p) by congruence. subst q.
      rewrite (IH HI1 Hdone i (advanced p)).
      * by rewrite (remaining_advanced p).
      * simpl. by apply list_lookup_insert_eq.
    + rewrite (IH HI1 Hdone i p); [done|].
      simpl. by rewrite list_lookup_insert_ne.
Qed.

(** The progress counter never decreases along the loop. *)
Lemma pc_monotone_step st st' :
  Inv es st → step 2 st st' →
  ∀ j p, pcbs st !! j = Some p → ∃ p', pcbs st' !! j = Some p' ∧ pc p <= pc p'.
Proof.
  intros HI Hstep j p Hp.
  destruct (step_after st st' HI Hstep)
    as (i & rest & e & q & Hst & He & Hq & _ & _ & _ & H0 & Hlt & _ & ->).
  assert (Hi : (i < length (pcbs st))%nat) by (eapply lookup_lt_Some; eauto).
  simpl. destruct (decide (i = j)) as [->|Hne].
  - assert (q = p) by congruence. subst q.
    exists (advanced p). rewrite list_lookup_insert_eq by done.
    split; [done|]. unfold advanced; simpl. lia.
  - exists p. rewrite list_lookup_insert_ne by done. split; [done|lia].
Qed.

Lemma pc_monotone_rtc st st' :
  Inv es st → rtc (step 2) st st' →
  ∀ j p, pcbs st !! j = Some p → ∃ p', pcbs st' !! j = Some p' ∧ pc p <= pc p'.
Proof.
  intros HI Hrtc. induction Hrtc as [st|st st1 st2 Hstep Hrtc IH]; intros j p Hp.
  - exists p. split; [done|lia].
  - destruct (pc_monotone_step st st1 HI Hstep j p Hp) as (p1 & Hp1 & Hle1).
    destruct (IH (Inv_step st st1 HI Hstep) j p1 Hp1) as (p2 & Hp2 & Hle2).
    exists p2. split; [done|lia].
Qed.

End scheduler.

(** ** Runs and the step relation, for any quantum *)

Lemma step_deterministic q st a b : step q st a → step q st b → a = b.
Proof. intros [? ? _ Ha] Hb. inversion Hb; subst. congruence. Qed.

Lemma run_rtc q st heads st' : run q st heads st' → rtc (step q) st st'.
Proof.
  induction 1 as [st|st st1 heads st2 Hstep Hrun IH]; [apply rtc_refl|].
  eapply rtc_l; eauto.
Qed.

Lemma rtc_run q st st' : rtc (step q) st st' → ∃ heads, run q st heads st'.
Proof.
  induction 1 as [st|st st1 st2 Hstep Hrtc [heads IH]].
  - exists []. constructor.
  - exists (st :: heads). econstructor; eauto.
Qed.

Lemma run_to_exit_unique q st heads1 st1 heads2 st2 :
  run q st heads1 st1 → allProcessesTerminated (pcbs st1) = true →
  run q st heads2 st2 → allProcessesTerminated (pcbs st2) = true →
  heads1 = heads2 ∧ st1 = st2.
Proof.
  intros Hrun1. revert heads2 st2.
  induction Hrun1 as [st|st sta heads1 st1 Hstep Hrun1 IH];
    intros heads2 st2 Hd1 Hrun2 Hd2.
  - destruct Hrun2 as [st|st stb heads2 st2 [? ? Hall _] _]; [done|congruence].
  - destruct Hrun2 as [st|st stb heads2 st2 Hstep2 Hrun2].
    + destruct Hstep as [? ? Hall _]. congruence.
    + rewrite <- (step_deterministic q st sta stb Hstep Hstep2) in Hrun2.
      destruct (IH heads2 st2 Hd1 Hrun2 Hd2) as [-> ->]. done.
Qed.

(** ** Valid inputs *)

Lemma valid_entries_work es : valid_entries es → valid_work es.
Proof. intros (_ & _ & _ & H & _). exact H. Qed.

Lemma valid_scenario_A : valid_entries scenario_A.
Proof.
  unfold valid_entries, valid_work, scenario_A, INT_MIN, INT_MAX; simpl.
  repeat split; try lia.
  - repeat constructor; simpl; lia.
  - repeat constructor; simpl; lia.
  - apply NoDup_cons. split; [|apply NoDup_singleton].
    intros H. apply list_elem_of_singleton in H. discriminate.
Qed.

(** [ceil_half w] is the least integer [k] with [w <= 2 * k]. *)
Lemma ceil_half_spec w : w <= 2 * ceil_half w ∧ 2 * (ceil_half w - 1) < w.
Proof. unfold ceil_half. Z.div_mod_to_equations. lia. Qed.

Lemma remaining_new pid w : 0 < w → Z.of_nat (remaining (new_PCB pid w)) = ceil_half w.
Proof.
  intros Hw. unfold remaining, new_PCB; simpl. rewrite Z.sub_0_r.
  apply Z2Nat.id. unfold ceil_half. apply Z.div_pos; lia.
Qed.

(** ** Termination *)

(** C1: on every valid input the scheduler loop halts (any bound above the
    number of ticks needed is enough), and on exit every record is
    Terminated with its progress equal to its total work. *)
Theorem scheduler_halts es fuel :
  valid_entries es → (ticks_needed (pcbs_of es) < fuel)%nat →
  ∃ final lines,
    kernelSimulator fuel (pcbs_of es) 2 = Some (final, lines) ∧
    final = completed <$> es ∧
    Forall (λ p, state p = "Terminated"%string ∧ pc p = total_work p) final.
Proof.
  intros Hv Hfuel. pose proof (valid_entries_work es Hv) as Hw.
  pose proof (Inv_initial es Hw) as HI.
  destruct (loop_terminates es Hw fuel _ HI Hfuel) as (st & Hloop & Hrtc & Hdone).
  destruct (rtc_run _ _ _ Hrtc) as [heads Hrun].
  pose proof (Inv_run es Hw _ _ _ HI Hrun) as HI'.
  exists (pcbs st), (cout st). unfold kernelSimulator. rewrite Hloop. simpl.
  split; [done|]. rewrite (Inv_terminated es st HI' Hdone). split; [done|].
  apply Forall_fmap, Forall_true. intros e. by unfold completed.
Qed.

Lemma scheduler_halts_witness :
  valid_entries scenario_A ∧ (ticks_needed (pcbs_of scenario_A) < 4)%nat ∧
  ∃ final lines,
    kernelSimulator 4 (pcbs_of scenario_A) 2 = Some (final, lines) ∧
    final = completed <$> scenario_A ∧
    Forall (λ p, state p = "Terminated"%string ∧ pc p = total_work p) final.
Proof.
  assert (Hfuel : (ticks_needed (pcbs_of scenario_A) < 4)%nat) by (vm_compute; lia).
  split; [exact valid_scenario_A|]. split; [exact Hfuel|].
  exact (scheduler_halts scenario_A 4 valid_scenario_A Hfuel).
Defined.

(** ** The tick-count law *)

(** C2: on every valid input the run reaches the exit of the loop, and over
    that run the process of an entry with work [w] is dispatched on exactly
    [ceil (w / 2)] ticks. *)
Theorem tick_count_law es :
  valid_entries es →
  (∃ heads final, run 2 (initial (pcbs_of es)) heads final ∧
                  allProcessesTerminated (pcbs final) = true) ∧
  (∀ heads final,
     run 2 (initial (pcbs_of es)) heads final →
     allProcessesTerminated (pcbs final) = true →
     ∀ i e, es !! i = Some e → Z.of_nat (dispatch_count i heads) = ceil_half e.2).
Proof.
  intros Hv. pose proof (valid_entries_work es Hv) as Hw.
  pose proof (Inv_initial es Hw) as HI. split.
  - destruct (loop_terminates es Hw (S (ticks_needed (pcbs_of es))) _ HI)
      as (st & _ & Hrtc & Hdone); [simpl; lia|].
    destruct (rtc_run _ _ _ Hrtc) as [heads Hrun]. by exists heads, st.
  - intros heads final Hrun Hdone i e He.
    rewrite (dispatch_count_run es Hw _ _ _ Hrun HI Hdone i (new_PCB e.1 e.2)).
    + apply remaining_new. apply (work_bounds es Hw i e He).
    + simpl. unfold pcbs_of. by rewrite list_lookup_fmap, He.
Qed.

Lemma tick_count_law_witness :
  valid_entries scenario_A ∧
  (∃ heads final, run 2 (initial (pcbs_of scenario_A)) heads final ∧
                  allProcessesTerminated (pcbs final) = true) ∧
  (∀ heads final,
     run 2 (initial (pcbs_of scenario_A)) heads final →
     allProcessesTerminated (pcbs final) = true →
     ∀ i e, scenario_A !! i = Some e →
            Z.of_nat (dispatch_count i heads) = ceil_half e.2).
Proof.
  split; [exact valid_scenario_A|].
  exact (tick_count_law scenario_A valid_scenario_A).
Defined.

(** ** The empty-queue branch *)

(** C9: whenever the loop body is entered on a valid input, the ready queue
    is not empty: the body pops its front and dispatches that process, so
    the [else] branch of the loop is never taken. *)
Theorem empty_queue_branch_unreachable es st :
  valid_entries es → reachable 2 es st →
  allProcessesTerminated (pcbs st) = false →
  readyQueue st ≠ [] ∧
  ∃ i p st', dispatched st = Some i ∧ pcbs st !! i = Some p ∧
             tick 2 st = Some st' ∧
             observed 2 st = Some (<[i := dispatch 2 p]> (pcbs st)).
Proof.
  intros Hv Hr Hall. pose proof (valid_entries_work es Hv) as Hw.
  pose proof (Inv_reachable es Hw st Hr) as HI.
  split; [by apply (Inv_queue_nonempty es)|].
  destruct (step_enabled es Hw st HI Hall) as [st' Hstep].
  destruct (step_after es Hw st st' HI Hstep)
    as (i & rest & e & p & Hst & He & Hp & _ & _ & _ & H0 & Hlt & _ & ->).
  exists i, p, (after_tick st i rest p). 
  destruct Hstep as [st st' _ Htick].
  unfold dispatched, observed, before_print. rewrite Hst, Hp. simpl.
  repeat split; done.
Qed.

Lemma empty_queue_branch_unreachable_witness :
  valid_entries scenario_A ∧ reachable 2 scenario_A (initial (pcbs_of scenario_A)) ∧
  allProcessesTerminated (pcbs (initial (pcbs_of scenario_A))) = false ∧
  readyQueue (initial (pcbs_of scenario_A)) ≠ [] ∧
  ∃ i p st', dispatched (initial (pcbs_of scenario_A)) = Some i ∧
             pcbs (initial (pcbs_of scenario_A)) !! i = Some p ∧
             tick 2 (initial (pcbs_of scenario_A)) = Some st' ∧
             observed 2 (initial (pcbs_of scenario_A)) =
               Some (<[i := dispatch 2 p]> (pcbs (initial (pcbs_of scenario_A)))).
Proof.
  assert (Hr : reachable 2 scenario_A (initial (pcbs_of scenario_A))) by apply rtc_refl.
  assert (Hall : allProcessesTerminated (pcbs (initial (pcbs_of scenario_A))) = false)
    by reflexivity.
  split; [exact valid_scenario_A|]. split; [exact Hr|]. split; [exact Hall|].
  exact (empty_queue_branch_unreachable scenario_A _ valid_scenario_A Hr Hall).
Defined.

(** ** FIFO dispatch *)

Lemma omap_cons_option_list {A B} (f : A → option B) x l :
  omap f (x :: l) = option_list (f x) ++ omap f l.
Proof. simpl. by destruct (f x). Qed.

(** What one iteration does to the queue: the index popped leaves at the
    front, the index pushed enters at the back. *)
Lemma tick_queue q st st' :
  tick q st = Some st' →
  readyQueue st ++ option_list (requeued q st) =
  option_list (dispatched st) ++ readyQueue st'.
Proof.
  unfold tick, before_print, requeued, dispatched.
  destruct (readyQueue st) as [|i rest] eqn:Hq; simpl.
  - intros H. inversion H; subst; simpl. reflexivity.
  - destruct (pcbs st !! i) as [p|] eqn:Hp; simpl; [|discriminate].
    assert (Hi : (i < length (pcbs st))%nat) by (eapply lookup_lt_Some; eauto).
    unfold requeue, emit; simpl. rewrite list_lookup_insert_eq by done. simpl.
    destruct (pc (dispatch q p) <? total_work (dispatch q p));
      intros H; inversion H; subst; simpl; [reflexivity|].
    by rewrite app_nil_r.
Qed.

(** Enqueue order is dequeue order: along any run, the indices pushed so
    far (the queue on entry, then the requeues) are the indices popped so
    far followed by the current queue. *)
Lemma fifo_run q st heads st' :
  run q st heads st' →
  readyQueue st ++ enqueue_log q heads = dispatch_log heads ++ readyQueue st'.
Proof.
  induction 1 as [st|st st1 heads st2 [? ? _ Htick] Hrun IH].
  - unfold enqueue_log, dispatch_log. simpl. by rewrite app_nil_r.
  - unfold enqueue_log, dispatch_log in *. rewrite !omap_cons_option_list.
    rewrite app_assoc, (tick_queue q _ _ Htick), <- !app_assoc.
    by rewrite IH.
Qed.

Lemma dispatch_same q p p' :
  same_progress p p' → same_progress (dispatch q p) (dispatch q p').
Proof.
  intros (Hs & Hpc & Htw). unfold dispatch, set_pc, set_state; simpl.
  rewrite Hpc, Htw.
  destruct (wrap_int (pc p' + Z.min q (wrap_int (total_work p' - pc p'))) >=? total_work p');
    by unfold same_progress.
Qed.

Lemma allProcessesTerminated_same ps ps' :
  Forall2 same_progress ps ps' →
  allProcessesTerminated ps = allProcessesTerminated ps'.
Proof.
  induction 1 as [|p p' ps ps' (Hs & _ & _) _ IH]; simpl; [done|].
  by rewrite Hs, IH.
Qed.

Lemma tick_same q st1 st2 st1' :
  same_schedule st1 st2 → tick q st1 = Some st1' →
  ∃ st2', tick q st2 = Some st2' ∧ same_schedule st1' st2'.
Proof.
  intros [Hq HF]. unfold tick, before_print. rewrite <- Hq.
  destruct (readyQueue st1) as [|i rest] eqn:Hq1; simpl.
  - intros H. inversion H; subst. eexists. split; [done|].
    split; simpl; done.
  - destruct (pcbs st1 !! i) as [p|] eqn:Hp; simpl; [|discriminate].
    destruct (Forall2_lookup_l _ _ _ _ _ HF Hp) as (p' & Hp' & Hsame).
    rewrite Hp'. simpl.
    assert (Hi : (i < length (pcbs st1))%nat) by (eapply lookup_lt_Some; eauto).
    assert (Hi' : (i < length (pcbs st2))%nat) by (eapply lookup_lt_Some; eauto).
    unfold requeue, emit; simpl. rewrite !list_lookup_insert_eq by done. simpl.
    pose proof (dispatch_same q p p' Hsame) as (Hs & Hpc & Htw).
    rewrite Hpc, Htw.
    destruct (pc (dispatch q p') <? total_work (dispatch q p'));
      intros H; inversion H; subst; eexists; (split; [done|]); split; simpl; try done.
    + rewrite !list_insert_insert_eq. apply Forall2_insert; [done|].
      unfold same_progress, set_state; simpl. done.
    + apply Forall2_insert; [done|]. by unfold same_progress.
Qed.

(** A run is reproduced, dispatch for dispatch, from any state that agrees
    with the first one up to pids. *)
Lemma run_same q st1 heads st1' st2 :
  run q st1 heads st1' → same_schedule st1 st2 →
  ∃ heads' st2', run q st2 heads' st2' ∧ same_schedule st1' st2' ∧
                 dispatch_log heads' = dispatch_log heads.
Proof.
  intros Hrun. revert st2.
  induction Hrun as [st1|st1 sta heads st1' [? ? Hall Htick] Hrun IH]; intros st2 HR.
  - exists [], st2. split; [constructor|done].
  - destruct (tick_same q _ st2 _ HR Htick) as (stb & Htick2 & HR').
    destruct (IH stb HR') as (heads' & st2' & Hrun2 & HR2 & Hlog).
    exists (st2 :: heads'), st2'. split; [|split; [done|]].
    + econstructor; [|exact Hrun2]. constructor; [|done].
      destruct HR as [_ HF]. by rewrite <- (allProcessesTerminated_same _ _ HF).
    + unfold dispatch_log in *. rewrite !omap_cons_option_list, Hlog.
      unfold dispatched. destruct HR as [<- _]. done.
Qed.

Lemma pcbs_of_same es es' :
  es.*2 = es'.*2 → Forall2 same_progress (pcbs_of es) (pcbs_of es').
Proof.
  revert es'. induction es as [|e es IH]; intros [|e' es'] Heq; simpl in *;
    try discriminate; [constructor|].
  inversion Heq as [[Hw Hrest]]. constructor; [|by apply IH].
  unfold same_progress, new_PCB; simpl. by rewrite Hw.
Qed.

(** C4: dispatch is strictly FIFO.  The queue starts as the input order;
    along every run the k-th index popped is the k-th index pushed (the
    initial pushes, then the requeues); each tick pops the front of the
    queue and pushes it at the back exactly when its record did not
    terminate; and the sequence of dispatches is the same for any other
    choice of pids with the same work units. *)
Theorem fifo_dispatch es :
  valid_entries es →
  readyQueue (initial (pcbs_of es)) = seq 0 (length es) ∧
  (∀ heads st,
     run 2 (initial (pcbs_of es)) heads st →
     seq 0 (length es) ++ enqueue_log 2 heads = dispatch_log heads ++ readyQueue st ∧
     ∀ k i, dispatch_log heads !! k = Some i →
            (seq 0 (length es) ++ enqueue_log 2 heads) !! k = Some i) ∧
  (∀ st st',
     reachable 2 es st → step 2 st st' →
     ∃ i rest p',
       readyQueue st = i :: rest ∧ dispatched st = Some i ∧
       pcbs st' !! i = Some p' ∧
       readyQueue st' =
         if String.eqb (state p') "Terminated" then rest else rest ++ [i]) ∧
  (∀ es' heads st,
     es'.*2 = es.*2 →
     run 2 (initial (pcbs_of es)) heads st →
     ∃ heads' st', run 2 (initial (pcbs_of es')) heads' st' ∧
                   dispatch_log heads' = dispatch_log heads).
Proof.
  intros Hv. pose proof (valid_entries_work es Hv) as Hw.
  assert (Hlen : length (pcbs_of es) = length es) by apply length_map.
  split; [|split; [|split]].
  - simpl. by rewrite Hlen.
  - intros heads st Hrun. pose proof (fifo_run 2 _ _ _ Hrun) as Hfifo.
    simpl in Hfifo. rewrite Hlen in Hfifo. split; [done|].
    intros k i Hk. rewrite Hfifo. by apply lookup_app_l_Some.
  - intros st st' Hr Hstep.
    pose proof (Inv_reachable es Hw st Hr) as HI.
    destruct (step_after es Hw st st' HI Hstep)
      as (i & rest & e & p & Hst & He & Hp & _ & _ & _ & H0 & Hlt & _ & ->).
    assert (Hi : (i < length (pcbs st))%nat) by (eapply lookup_lt_Some; eauto).
    exists i, rest, (advanced p). unfold dispatched. rewrite Hst. simpl.
    rewrite list_lookup_insert_eq by done. repeat split; try done.
    by destruct (pc p + 2 <? total_work p).
  - intros es' heads st Heq Hrun.
    assert (HR : same_schedule (initial (pcbs_of es)) (initial (pcbs_of es'))).
    { split; simpl.
      - unfold pcbs_of. rewrite !length_map.
        f_equal. rewrite <- (length_fmap snd es), <- (length_fmap snd es'). by rewrite Heq.
      - by apply pcbs_of_same. }
    destruct (run_same 2 _ _ _ _ Hrun HR) as (heads' & st' & Hrun' & _ & Hlog).
    by exists heads', st'.
Qed.

Lemma fifo_dispatch_witness :
  valid_entries scenario_A ∧
  readyQueue (initial (pcbs_of scenario_A)) = seq 0 (length scenario_A) ∧
  (∀ heads st,
     run 2 (initial (pcbs_of scenario_A)) heads st →
     seq 0 (length scenario_A) ++ enqueue_log 2 heads =
       dispatch_log heads ++ readyQueue st ∧
     ∀ k i, dispatch_log heads !! k = Some i →
            (seq 0 (length scenario_A) ++ enqueue_log 2 heads) !! k = Some i) ∧
  (∀ st st',
     reachable 2 scenario_A st → step 2 st st' →
     ∃ i rest p',
       readyQueue st = i :: rest ∧ dispatched st = Some i ∧
       pcbs st' !! i = Some p' ∧
       readyQueue st' =
         if String.eqb (state p') "Terminated" then rest else rest ++ [i]) ∧
  (∀ es' heads st,
     es'.*2 = scenario_A.*2 →
     run 2 (initial (pcbs_of scenario_A)) heads st →
     ∃ heads' st', run 2 (initial (pcbs_of es')) heads' st' ∧
                   dispatch_log heads' = dispatch_log heads).
Proof.
  split; [exact valid_scenario_A|].
  exact (fifo_dispatch scenario_A valid_scenario_A).
Defined.

(** ** The record invariant *)

Lemma Inv_record_ok es st : Inv es st → Forall record_ok (pcbs st).
Proof.
  intros (_ & Hlen & Hrec & _). apply Forall_lookup. intros i p Hp.
  destruct (lookup_lt_is_Some_2 es i) as [e He].
  { apply lookup_lt_Some in Hp. lia. }
  destruct (Hrec i e p He Hp) as (_ & _ & H0 & [(_ & Hs & Hlt)|(_ & Hs & Heq)]);
    unfold record_ok; rewrite Hs.
  - split; [|lia]. split; [discriminate|lia].
  - split; [|lia]. done.
Qed.

Lemma dispatch_record_ok p :
  0 <= pc p → pc p < total_work p → total_work p <= INT_MAX →
  record_ok (dispatch 2 p) ∧ pc p <= pc (dispatch 2 p) ∧
  pc (dispatch 2 p) = pc (advanced p).
Proof.
  intros H0 Hlt Hmax. rewrite (dispatch_unfinished p) by done.
  unfold record_ok, advanced; simpl.
  destruct (Z.ltb_spec (pc p + 2) (total_work p)).
  - repeat split; try lia; discriminate.
  - repeat split; lia.
Qed.

(** C3: on a valid input, at every completion check and at every trace
    emission each record is Terminated exactly when its progress equals its
    total work, its progress lies between 0 and its total work, and the
    progress of a record never decreases: not from the check to the trace of
    the same tick, not from that trace to the next check, and not over any
    number of ticks. *)
Theorem record_invariant es st :
  valid_entries es → reachable 2 es st →
  Forall record_ok (pcbs st) ∧
  (allProcessesTerminated (pcbs st) = false →
   ∃ tr st',
     observed 2 st = Some tr ∧ step 2 st st' ∧ Forall record_ok tr ∧
     ∀ j p, pcbs st !! j = Some p →
            ∃ p' p'', tr !! j = Some p' ∧ pcbs st' !! j = Some p'' ∧
                      pc p <= pc p' ∧ pc p' <= pc p'') ∧
  (∀ st', rtc (step 2) st st' →
          ∀ j p, pcbs st !! j = Some p →
                 ∃ p', pcbs st' !! j = Some p' ∧ pc p <= pc p').
Proof.
  intros Hv Hr. pose proof (valid_entries_work es Hv) as Hw.
  pose proof (Inv_reachable es Hw st Hr) as HI.
  pose proof (Inv_record_ok es st HI) as Hok.
  split; [done|]. split.
  - intros Hall.
    destruct (step_enabled es Hw st HI Hall) as [st' Hstep].
    destruct (step_after es Hw st st' HI Hstep)
      as (i & rest & e & p & Hst & He & Hp & _ & _ & _ & H0 & Hlt & Hmax & ->).
    assert (Hi : (i < length (pcbs st))%nat) by (eapply lookup_lt_Some; eauto).
    destruct (dispatch_record_ok p H0 Hlt Hmax) as (Hdok & Hle & Hpc).
    exists (<[i := dispatch 2 p]> (pcbs st)), (after_tick st i rest p).
    split; [|split; [done|split]].
    + unfold observed, before_print. by rewrite Hst, Hp.
    + by apply Forall_insert.
    + intros j q Hq. simpl. destruct (decide (i = j)) as [->|Hne].
      * assert (q = p) by congruence. subst q.
        exists (dispatch 2 p), (advanced p).
        rewrite !list_lookup_insert_eq by done. repeat split; [done|lia].
      * exists q, q. rewrite !list_lookup_insert_ne by done.
        repeat split; try done; lia.
  - intros st' Hrtc. by apply (pc_monotone_rtc es Hw).
Qed.

Lemma record_invariant_witness :
  valid_entries scenario_A ∧
  reachable 2 scenario_A (initial (pcbs_of scenario_A)) ∧
  Forall record_ok (pcbs (initial (pcbs_of scenario_A))) ∧
  (allProcessesTerminated (pcbs (initial (pcbs_of scenario_A))) = false →
   ∃ tr st',
     observed 2 (initial (pcbs_of scenario_A)) = Some tr ∧
     step 2 (initial (pcbs_of scenario_A)) st' ∧ Forall record_ok tr ∧
     ∀ j p, pcbs (initial (pcbs_of scenario_A)) !! j = Some p →
            ∃ p' p'', tr !! j = Some p' ∧ pcbs st' !! j = Some p'' ∧
                      pc p <= pc p' ∧ pc p' <= pc p'') ∧
  (∀ st', rtc (step 2) (initial (pcbs_of scenario_A)) st' →
          ∀ j p, pcbs (initial (pcbs_of scenario_A)) !! j = Some p →
                 ∃ p', pcbs st' !! j = Some p' ∧ pc p <= pc p').
Proof.
  assert (Hr : reachable 2 scenario_A (initial (pcbs_of scenario_A))) by apply rtc_refl.
  split; [exact valid_scenario_A|]. split; [exact Hr|].
  exact (record_invariant scenario_A _ valid_scenario_A Hr).
Defined.

(** ** The trace printer *)

Lemma insert_by_pid_perm p l : insert_by_pid p l ≡ₚ p :: l.
Proof.
  induction l as [|q l IH]; simpl; [done|].
  destruct (pid q <? pid p); [|done].
  rewrite IH. apply Permutation_swap.
Qed.

Lemma sort_by_pid_perm l : sort_by_pid l ≡ₚ l.
Proof.
  induction l as [|p l IH]; simpl; [done|].
  by rewrite insert_by_pid_perm, IH.
Qed.

Lemma insert_by_pid_sorted p l :
  StronglySorted (λ a b, pid a <= pid b) l →
  StronglySorted (λ a b, pid a <= pid b) (insert_by_pid p l).
Proof.
  induction 1 as [|q l Hs IH Hq]; simpl.
  - repeat constructor.
  - destruct (Z.ltb_spec (pid q) (pid p)) as [Hlt|Hge].
    + constructor; [done|].
      rewrite insert_by_pid_perm. constructor; [lia|done].
    + constructor; [by constructor|].
      constructor; [lia|]. eapply Forall_impl; [exact Hq|].
      intros x Hx. simpl in Hx. lia.
Qed.

Lemma sort_by_pid_sorted l : StronglySorted (λ a b, pid a <= pid b) (sort_by_pid l).
Proof.
  induction l as [|p l IH]; simpl; [constructor|].
  by apply insert_by_pid_sorted.
Qed.

Lemma sorted_strict l :
  StronglySorted (λ a b, pid a <= pid b) l → NoDup (pid <$> l) →
  StronglySorted (λ a b, pid a < pid b) l.
Proof.
  induction 1 as [|q l Hs IH Hq]; intros Hnd; [constructor|].
  rewrite fmap_cons in Hnd. apply NoDup_cons in Hnd as [Hni Hnd].
  constructor; [by apply IH|].
  rewrite Forall_forall in Hq. apply Forall_forall. intros x Hx.
  specialize (Hq x Hx). simpl in Hq.
  assert (pid q ≠ pid x); [|lia].
  intros Heq. apply Hni. rewrite Heq. by apply list_elem_of_fmap_2.
Qed.

(** The order of the lines depends on the pids alone. *)
Lemma insert_by_pid_pids p p' l l' :
  pid p = pid p' → pid <$> l = pid <$> l' →
  pid <$> insert_by_pid p l = pid <$> insert_by_pid p' l'.
Proof.
  intros Hp. revert l'.
  induction l as [|q l IH]; intros [|q' l'] Hl; try (by inversion Hl).
  - simpl. by rewrite Hp.
  - rewrite !fmap_cons in Hl. inversion Hl as [[Hq Hrest]].
    cbn [insert_by_pid]. rewrite Hp, Hq.
    destruct (pid q' <? pid p'); rewrite !fmap_cons.
    + by rewrite Hq, (IH l' Hrest).
    + by rewrite Hp, Hq, Hrest.
Qed.

Lemma sort_by_pid_pids l l' :
  pid <$> l = pid <$> l' → pid <$> sort_by_pid l = pid <$> sort_by_pid l'.
Proof.
  revert l'. induction l as [|p l IH]; intros [|p' l'] Hl; try (by inversion Hl).
  rewrite !fmap_cons in Hl. inversion Hl as [[Hp Hrest]].
  cbn [sort_by_pid]. apply insert_by_pid_pids; [done|by apply IH].
Qed.

Lemma Inv_pids es st : Inv es st → pid <$> pcbs st = es.*1.
Proof.
  intros (_ & Hlen & Hrec & _). apply list_eq. intros i.
  rewrite !list_lookup_fmap.
  destruct (pcbs st !! i) as [p|] eqn:Hp; simpl.
  - destruct (lookup_lt_is_Some_2 es i) as [e He].
    { apply lookup_lt_Some in Hp. lia. }
    rewrite He. simpl. destruct (Hrec i e p He Hp) as (Hpid & _). by rewrite Hpid.
  - apply lookup_ge_None in Hp.
    rewrite (proj2 (lookup_ge_None es i)) by lia. done.
Qed.

Lemma dispatch_pid q p : pid (dispatch q p) = pid p.
Proof.
  unfold dispatch, set_pc, set_state; simpl.
  by destruct (wrap_int (pc p + Z.min q (wrap_int (total_work p - pc p))) >=? total_work p).
Qed.

Lemma pids_insert (ps : list PCB) i p p' :
  ps !! i = Some p → pid p' = pid p → pid <$> <[i := p']> ps = pid <$> ps.
Proof.
  intros Hp Hpid. rewrite list_fmap_insert, Hpid.
  apply list_insert_id. by rewrite list_lookup_fmap, Hp.
Qed.

Lemma pcbs_of_pids es : pid <$> pcbs_of es = es.*1.
Proof.
  unfold pcbs_of. induction es as [|e es IH]; simpl; [done|].
  f_equal. exact IH.
Qed.

(** C7: on a valid input the block written on a tick is the header and
    then one line per process, the lines in strictly ascending pid order;
    the order of the pids in the block is the same on every tick, whatever
    was dispatched; and the emission leaves the records, the queue and the
    tick counter as they were. *)
Theorem trace_block_sorted es st :
  valid_entries es → reachable 2 es st →
  allProcessesTerminated (pcbs st) = false →
  ∃ st1 st',
    before_print 2 st = Some st1 ∧ tick 2 st = Some st' ∧
    cout st' = cout st ++ printProcessStates (pcbs st1) (currentTime st1) ∧
    printProcessStates (pcbs st1) (currentTime st1) =
      interrupt_line (currentTime st1) :: map pcb_line (sort_by_pid (pcbs st1)) ∧
    sort_by_pid (pcbs st1) ≡ₚ pcbs st1 ∧
    length (sort_by_pid (pcbs st1)) = length es ∧
    StronglySorted (λ a b, pid a < pid b) (sort_by_pid (pcbs st1)) ∧
    pid <$> sort_by_pid (pcbs st1) = pid <$> sort_by_pid (pcbs_of es) ∧
    pcbs (emit st1) = pcbs st1 ∧ readyQueue (emit st1) = readyQueue st1 ∧
    currentTime (emit st1) = currentTime st1.
Proof.
  intros Hv Hr Hall. pose proof (valid_entries_work es Hv) as Hw.
  destruct Hv as (_ & _ & _ & _ & Hnd).
  pose proof (Inv_reachable es Hw st Hr) as HI.
  destruct (step_enabled es Hw st HI Hall) as [st' Hstep].
  destruct (step_after es Hw st st' HI Hstep)
    as (i & rest & e & p & Hst & He & Hp & _ & _ & _ & H0 & Hlt & Hmax & ->).
  pose proof (tick_head st i rest p Hst Hp H0 Hlt Hmax) as Htick.
  assert (Hpids : pid <$> <[i := dispatch 2 p]> (pcbs st) = es.*1).
  { rewrite (pids_insert _ i p) by (done || apply dispatch_pid).
    by apply Inv_pids. }
  eexists _, _. split; [|split; [exact Htick|]].
  { unfold before_print. rewrite Hst, Hp. reflexivity. }
  simpl. split; [done|]. split; [done|].
  split; [apply sort_by_pid_perm|]. split.
  { rewrite (Permutation_length (sort_by_pid_perm _)), length_insert.
    by destruct HI as (_ & Hlen & _). }
  split.
  { apply sorted_strict; [apply sort_by_pid_sorted|].
    rewrite (sort_by_pid_perm _), Hpids. done. }
  split; [|done].
  apply sort_by_pid_pids. by rewrite Hpids, pcbs_of_pids.
Qed.

Lemma trace_block_sorted_witness :
  valid_entries scenario_A ∧
  reachable 2 scenario_A (initial (pcbs_of scenario_A)) ∧
  allProcessesTerminated (pcbs (initial (pcbs_of scenario_A))) = false ∧
  ∃ st1 st',
    before_print 2 (initial (pcbs_of scenario_A)) = Some st1 ∧
    tick 2 (initial (pcbs_of scenario_A)) = Some st' ∧
    cout st' = cout (initial (pcbs_of scenario_A)) ++
               printProcessStates (pcbs st1) (currentTime st1) ∧
    printProcessStates (pcbs st1) (currentTime st1) =
      interrupt_line (currentTime st1) :: map pcb_line (sort_by_pid (pcbs st1)) ∧
    sort_by_pid (pcbs st1) ≡ₚ pcbs st1 ∧
    length (sort_by_pid (pcbs st1)) = length scenario_A ∧
    StronglySorted (λ a b, pid a < pid b) (sort_by_pid (pcbs st1)) ∧
    pid <$> sort_by_pid (pcbs st1) = pid <$> sort_by_pid (pcbs_of scenario_A) ∧
    pcbs (emit st1) = pcbs st1 ∧ readyQueue (emit st1) = readyQueue st1 ∧
    currentTime (emit st1) = currentTime st1.
Proof.
  assert (Hr : reachable 2 scenario_A (initial (pcbs_of scenario_A))) by apply rtc_refl.
  assert (Hall : allProcessesTerminated (pcbs (initial (pcbs_of scenario_A))) = false)
    by reflexivity.
  split; [exact valid_scenario_A|]. split; [exact Hr|]. split; [exact Hall|].
  exact (trace_block_sorted scenario_A _ valid_scenario_A Hr Hall).
Defined.

(** ** Scenario A *)

Lemma scenario_A_steps :
  step 2 (initial (pcbs_of scenario_A)) scenario_A_tick1 ∧
  step 2 scenario_A_tick1 scenario_A_tick2 ∧
  step 2 scenario_A_tick2 scenario_A_tick3.
Proof. repeat split; constructor; reflexivity. Qed.

(** C8: on N=2, (pid 1, work 3), (pid 2, work 2) the run takes exactly
    three ticks.  Tick 1 traces pid 1 Running at pc 2 and requeues it as
    Ready; tick 2 traces pid 2 Terminated at pc 2; tick 3 traces pid 1
    Terminated at pc 3; the program then prints the closing line and exits
    with status 0. *)
Theorem scenario_A_trace :
  (∀ fuel, (4 <= fuel)%nat →
     main fuel (tokens_of scenario_A) =
     Some {| exit_status := 0;
             stdout := ["Interrupt 1:"; "PID 1: Running, at pc 2"; "PID 2: Ready, at pc 0";
                        "Interrupt 2:"; "PID 1: Ready, at pc 2"; "PID 2: Terminated, at pc 2";
                        "Interrupt 3:"; "PID 1: Terminated, at pc 3";
                        "PID 2: Terminated, at pc 2";
                        "All processes completed."]%string;
             stderr := [] |}) ∧
  run 2 (initial (pcbs_of scenario_A))
      [initial (pcbs_of scenario_A); scenario_A_tick1; scenario_A_tick2]
      scenario_A_tick3 ∧
  allProcessesTerminated (pcbs scenario_A_tick3) = true ∧
  observed 2 (initial (pcbs_of scenario_A)) =
    Some [mkPCB 1 "Running" 2 3; mkPCB 2 "Ready" 0 2] ∧
  observed 2 scenario_A_tick1 =
    Some [mkPCB 1 "Ready" 2 3; mkPCB 2 "Terminated" 2 2] ∧
  observed 2 scenario_A_tick2 =
    Some [mkPCB 1 "Terminated" 3 3; mkPCB 2 "Terminated" 2 2] ∧
  dispatch_log [initial (pcbs_of scenario_A); scenario_A_tick1; scenario_A_tick2]
    = [0; 1; 0]%nat.
Proof.
  destruct scenario_A_steps as (H1 & H2 & H3).
  split; [|split; [|repeat split]].
  - intros fuel Hfuel.
    destruct fuel as [|[|[|[|fuel]]]]; try lia. reflexivity.
  - repeat (econstructor; [eassumption|]). constructor.
Qed.

(** ** One dispatch per tick *)

(** Between the traces of ticks 1 and 2 of scenario A two records change
    state: pid 2, dispatched on tick 2, and pid 1, traced Running on tick 1
    and Ready on tick 2. *)
Lemma one_transition_per_tick_counterexample :
  valid_entries scenario_A ∧
  reachable 2 scenario_A (initial (pcbs_of scenario_A)) ∧
  step 2 (initial (pcbs_of scenario_A)) scenario_A_tick1 ∧
  allProcessesTerminated (pcbs scenario_A_tick1) = false ∧
  ¬ one_transition_per_tick 2 (initial (pcbs_of scenario_A)) scenario_A_tick1.
Proof.
  split; [exact valid_scenario_A|]. split; [apply rtc_refl|].
  split; [apply scenario_A_steps|]. split; [reflexivity|].
  intros (i & tr_prev & tr_cur & Hd & Hprev & Hcur & Hstate & Hother).
  vm_compute in Hd, Hprev, Hcur.
  inversion Hd; subst i. inversion Hprev; subst tr_prev. inversion Hcur; subst tr_cur.
  assert (Hne : (0 ≠ 1)%nat) by lia.
  specialize (Hother 0%nat Hne). discriminate Hother.
Qed.

(** C5 (amended): on every tick of a valid run the dispatched record is the
    one record that differs between the vector at the completion check and
    the vector traced on that tick: it was Ready, it is traced Running or
    Terminated, and its progress has grown.  Against the trace of the tick
    before, a record that neither tick dispatched is unchanged, and the
    record dispatched on the tick before (if not dispatched again) has the
    same progress and is Ready where that trace showed it Running. *)
Theorem dispatched_record_only es st :
  valid_entries es → reachable 2 es st →
  allProcessesTerminated (pcbs st) = false →
  ∃ i p tr,
    dispatched st = Some i ∧ pcbs st !! i = Some p ∧ observed 2 st = Some tr ∧
    tr = <[i := dispatch 2 p]> (pcbs st) ∧
    state p = "Ready"%string ∧
    (state (dispatch 2 p) = "Running"%string ∨
     state (dispatch 2 p) = "Terminated"%string) ∧
    pc p < pc (dispatch 2 p) ∧
    (∀ j, j ≠ i → tr !! j = pcbs st !! j) ∧
    (∀ prev i0 tr_prev,
       reachable 2 es prev → step 2 prev st →
       dispatched prev = Some i0 → observed 2 prev = Some tr_prev →
       (∀ j, j ≠ i → j ≠ i0 → tr !! j = tr_prev !! j) ∧
       (i0 ≠ i →
        ∃ p0, tr_prev !! i0 = Some p0 ∧
              tr !! i0 = Some (if String.eqb (state p0) "Running"
                               then set_state p0 "Ready" else p0))).
Proof.
  intros Hv Hr Hall. pose proof (valid_entries_work es Hv) as Hw.
  pose proof (Inv_reachable es Hw st Hr) as HI.
  destruct (step_enabled es Hw st HI Hall) as [st' Hstep].
  destruct (step_after es Hw st st' HI Hstep)
    as (i & rest & e & p & Hst & He & Hp & _ & _ & Hs & H0 & Hlt & Hmax & _).
  clear st' Hstep.
  exists i, p, (<[i := dispatch 2 p]> (pcbs st)).
  assert (Hobs : observed 2 st = Some (<[i := dispatch 2 p]> (pcbs st))).
  { unfold observed, before_print. by rewrite Hst, Hp. }
  split; [unfold dispatched; by rewrite Hst|].
  do 4 (split; [done|]). split; [|split; [|split]].
  - rewrite (dispatch_unfinished p) by done. simpl.
    destruct (pc p + 2 <? total_work p); [by left|by right].
  - rewrite (dispatch_unfinished p) by done. simpl. lia.
  - intros j Hj. by rewrite list_lookup_insert_ne.
  - intros prev i0 tr_prev Hrp Hstepp Hd0 Hobs0.
    pose proof (Inv_reachable es Hw prev Hrp) as HIp.
    destruct (step_after es Hw prev st HIp Hstepp)
      as (k & rest0 & e0 & p0 & Hst0 & He0 & Hp0 & _ & _ & _ & H00 & Hlt0 & Hmax0 & Heq).
    unfold dispatched in Hd0. rewrite Hst0 in Hd0. inversion Hd0; subst k.
    unfold observed, before_print in Hobs0. rewrite Hst0, Hp0 in Hobs0.
    inversion Hobs0; subst tr_prev. clear Hobs0 Hd0.
    assert (Hi0 : (i0 < length (pcbs prev))%nat) by (eapply lookup_lt_Some; eauto).
    assert (Hpcbs : pcbs st = <[i0 := advanced p0]> (pcbs prev)) by (by rewrite Heq).
    split.
    + intros j Hj Hj0. rewrite list_lookup_insert_ne by done.
      rewrite Hpcbs. by rewrite !list_lookup_insert_ne.
    + intros Hne. exists (dispatch 2 p0).
      rewrite list_lookup_insert_eq by done. split; [done|].
      rewrite list_lookup_insert_ne by done.
      rewrite Hpcbs, list_lookup_insert_eq by done. f_equal.
      rewrite (dispatch_unfinished p0) by done. unfold advanced, set_state. simpl.
      by destruct (pc p0 + 2 <? total_work p0).
Qed.

Lemma dispatched_record_only_witness :
  valid_entries scenario_A ∧ reachable 2 scenario_A scenario_A_tick1 ∧
  allProcessesTerminated (pcbs scenario_A_tick1) = false ∧
  ∃ i p tr,
    dispatched scenario_A_tick1 = Some i ∧ pcbs scenario_A_tick1 !! i = Some p ∧
    observed 2 scenario_A_tick1 = Some tr ∧
    tr = <[i := dispatch 2 p]> (pcbs scenario_A_tick1) ∧
    state p = "Ready"%string ∧
    (state (dispatch 2 p) = "Running"%string ∨
     state (dispatch 2 p) = "Terminated"%string) ∧
    pc p < pc (dispatch 2 p) ∧
    (∀ j, j ≠ i → tr !! j = pcbs scenario_A_tick1 !! j) ∧
    (∀ prev i0 tr_prev,
       reachable 2 scenario_A prev → step 2 prev scenario_A_tick1 →
       dispatched prev = Some i0 → observed 2 prev = Some tr_prev →
       (∀ j, j ≠ i → j ≠ i0 → tr !! j = tr_prev !! j) ∧
       (i0 ≠ i →
        ∃ p0, tr_prev !! i0 = Some p0 ∧
              tr !! i0 = Some (if String.eqb (state p0) "Running"
                               then set_state p0 "Ready" else p0))).
Proof.
  assert (Hr : reachable 2 scenario_A scenario_A_tick1).
  { eapply rtc_l; [apply scenario_A_steps|apply rtc_refl]. }
  assert (Hall : allProcessesTerminated (pcbs scenario_A_tick1) = false) by reflexivity.
  split; [exact valid_scenario_A|]. split; [exact Hr|]. split; [exact Hall|].
  exact (dispatched_record_only scenario_A _ valid_scenario_A Hr Hall).
Defined.

(** ** Reading the input *)

Lemma token_int_range input k z : token_int input k = Some z → INT_MIN <= z <= INT_MAX.
Proof.
  unfold token_int. destruct (input !! k) as [[z'|]|]; try discriminate.
  destruct (in_int_range z') eqn:Hr; [|discriminate].
  intros H. inversion H; subst. by apply in_int_range_spec.
Qed.

(** An extraction at offset [k] of the input reads token [k]. *)
Lemma extract_int_drop input k :
  extract_int (drop k input) = (λ z, (z, drop (S k) input)) <$> token_int input k.
Proof.
  unfold token_int. destruct (input !! k) as [t|] eqn:Hk.
  - rewrite (drop_S _ _ _ Hk). destruct t as [z|]; simpl; [|done].
    by destruct (in_int_range z).
  - rewrite drop_ge by (by apply lookup_ge_None). done.
Qed.

Lemma read_processes_spec input n : ∀ i0 ps pids,
  (∀ v, v ∈ pids ↔ ∃ j, (j < i0)%nat ∧ pid_at input j = Some v) →
  match read_processes n (drop (1 + 2 * i0) input) ps pids with
  | inl _ => ∃ i, (i0 <= i < i0 + n)%nat ∧ entry_error input i
  | inr ps' =>
      (∀ i, (i0 <= i < i0 + n)%nat → ¬ entry_error input i) ∧
      ∃ es, length es = n ∧ ps' = ps ++ pcbs_of es ∧
            ∀ k e, es !! k = Some e →
                   pid_at input (i0 + k) = Some e.1 ∧ work_at input (i0 + k) = Some e.2
  end.
Proof.
  induction n as [|n IH]; intros i0 ps pids Hpids.
  { simpl. split; [intros i Hi; lia|].
    exists []. rewrite app_nil_r. repeat split; try done. }
  cbn [read_processes]. rewrite extract_int_drop.
  fold (pid_at input i0).
  destruct (pid_at input i0) as [v|] eqn:Hv; cbn -[Nat.mul Nat.add drop].
  2:{ exists i0. split; [lia|]. by left. }
  rewrite extract_int_drop. fold (work_at input i0).
  destruct (work_at input i0) as [w|] eqn:Hwk; cbn -[Nat.mul Nat.add drop].
  2:{ exists i0. split; [lia|]. right. by left. }
  destruct (Z.leb_spec w 0) as [Hle|Hgt].
  { exists i0. split; [lia|]. right. right. left. by exists w. }
  destruct (bool_decide (v ∈ pids)) eqn:Hin.
  { apply bool_decide_eq_true in Hin. apply Hpids in Hin as (j & Hj & Hpj).
    exists i0. split; [lia|]. right. right. right. by exists j, v. }
  apply bool_decide_eq_false in Hin.
  replace (S (S (1 + 2 * i0))) with (1 + 2 * S i0)%nat by lia.
  assert (Hpids' : ∀ u, u ∈ ({[v]} ∪ pids : gset Z) ↔
                        ∃ j, (j < S i0)%nat ∧ pid_at input j = Some u).
  { intros u. rewrite elem_of_union, elem_of_singleton, Hpids. split.
    - intros [->|(j & Hj & Hpj)]; [exists i0; split; [lia|done]|].
      exists j. split; [lia|done].
    - intros (j & Hj & Hpj). destruct (decide (j = i0)) as [->|Hne].
      + left. congruence.
      + right. exists j. split; [lia|done]. }
  specialize (IH (S i0) (ps ++ [new_PCB v w]) ({[v]} ∪ pids) Hpids').
  destruct (read_processes n (drop (1 + 2 * S i0) input)
              (ps ++ [new_PCB v w]) ({[v]} ∪ pids)) as [d|ps'].
  - destruct IH as (i & Hi & Herr). exists i. split; [lia|done].
  - destruct IH as (Hok & es & Hlen & Hps & Hes). split.
    + intros i Hi. destruct (decide (i = i0)) as [->|Hne]; [|apply Hok; lia].
      intros [Herr|[Herr|[(w' & Hw' & Hle')|(j & u & Hj & Hu & Hju)]]]; try congruence.
      * assert (w' = w) by congruence. lia.
      * apply Hin. apply Hpids. exists j. split; [done|congruence].
    + exists ((v, w) :: es). split; [simpl; lia|]. split.
      * rewrite Hps, <- app_assoc. done.
      * intros [|k] e Hk; simpl in Hk.
        -- inversion Hk; subst e. simpl. by rewrite Nat.add_0_r.
        -- replace (i0 + S k)%nat with (S i0 + k)%nat by lia. by apply Hes.
Qed.

(** The entries read by a successful pass over the input are valid. *)
Lemma read_entries_valid input n es :
  count_of input = Some n → 0 < n → length es = Z.to_nat n →
  (∀ i, (i < Z.to_nat n)%nat → ¬ entry_error input i) →
  (∀ k e, es !! k = Some e →
          pid_at input k = Some e.1 ∧ work_at input k = Some e.2) →
  valid_entries es.
Proof.
  intros Hn Hpos Hlen Hok Hes.
  pose proof (token_int_range _ _ _ Hn) as Hrange.
  unfold valid_entries. rewrite Hlen. split; [lia|]. split; [lia|].
  split; [|split].
  - apply Forall_lookup. intros k e Hk. destruct (Hes k e Hk) as [Hp _].
    exact (token_int_range _ _ _ Hp).
  - apply Forall_lookup. intros k e Hk. destruct (Hes k e Hk) as [_ Hwk].
    pose proof (token_int_range _ _ _ Hwk) as Hr. split; [|lia].
    destruct (Z.lt_ge_cases 0 e.2) as [|Hle]; [done|].
    exfalso. apply (Hok k).
    + apply lookup_lt_Some in Hk. lia.
    + right. right. left. exists e.2. split; [done|lia].
  - apply NoDup_alt. intros i j v Hi Hj.
    rewrite list_lookup_fmap in Hi, Hj.
    destruct (es !! i) as [ei|] eqn:Hei; [|discriminate].
    destruct (es !! j) as [ej|] eqn:Hej; [|discriminate].
    simpl in Hi, Hj. inversion Hi as [Hvi]. inversion Hj as [Hvj].
    destruct (Hes i ei Hei) as [Hpi _]. destruct (Hes j ej Hej) as [Hpj _].
    rewrite Hvi in Hpi. rewrite Hvj in Hpj.
    apply lookup_lt_Some in Hei, Hej.
    destruct (Nat.lt_trichotomy i j) as [Hlt|[Heq|Hgt]]; [|done|]; exfalso.
    + apply (Hok j); [lia|]. right. right. right. by exists i, v.
    + apply (Hok i); [lia|]. right. right. right. by exists j, v.
Qed.

Lemma entry_error_rejected input n i :
  count_of input = Some n → Z.of_nat i < n → entry_error input i → rejected input.
Proof.
  intros Hn Hi [Hp|[Hwk|[(w & Hwk & Hle)|(j & v & Hj & Hpi & Hpj)]]].
  - exists MalformedEntryError. exists n, i. repeat split; try done. by left.
  - exists MalformedEntryError. exists n, i. repeat split; try done. by right.
  - exists InvalidWorkError. by exists n, i, w.
  - exists DuplicatePidError. by exists n, i, j, v.
Qed.

Lemma rejected_entry_error input n :
  count_of input = Some n → 0 < n → rejected input →
  ∃ i, (i < Z.to_nat n)%nat ∧ entry_error input i.
Proof.
  intros Hn Hpos [err Herr]. destruct err; simpl in Herr.
  - congruence.
  - destruct Herr as (n' & Hn' & Hle). assert (n' = n) by congruence. lia.
  - destruct Herr as (n' & i & Hn' & Hi & Hbad). assert (n' = n) by congruence.
    exists i. split; [lia|]. destruct Hbad; [by left|right; by left].
  - destruct Herr as (n' & i & w & Hn' & Hi & Hwk & Hle).
    assert (n' = n) by congruence.
    exists i. split; [lia|]. right. right. left. by exists w.
  - destruct Herr as (n' & i & j & v & Hn' & Hi & Hj & Hpi & Hpj).
    assert (n' = n) by congruence.
    exists i. split; [lia|]. right. right. right. by exists j, v.
Qed.

(** [main] either stops with a diagnostic, on an input that shows one of
    the errors, or reads valid entries from an input that shows none and
    runs the simulator on them. *)
Lemma main_cases input :
  (∃ d, rejected input ∧ ∀ fuel, main fuel input = Some (failure d)) ∨
  (¬ rejected input ∧
   ∃ es, valid_entries es ∧
         count_of input = Some (Z.of_nat (length es)) ∧
         (∀ k e, es !! k = Some e →
                 pid_at input k = Some e.1 ∧ work_at input k = Some e.2) ∧
         ∀ fuel, main fuel input =
                 '(_, lines) ← kernelSimulator fuel (pcbs_of es) 2; Some (success lines)).
Proof.
  unfold main. change (extract_int input) with (extract_int (drop 0 input)).
  rewrite extract_int_drop. fold (count_of input).
  destruct (count_of input) as [n|] eqn:Hn; cbn -[Nat.mul Nat.add drop read_processes].
  2:{ left. eexists. split; [|done]. by exists MalformedCountError. }
  destruct (Z.leb_spec n 0) as [Hle|Hpos].
  { left. eexists. split; [|done]. exists InvalidCountError. by exists n. }
  assert (Hset : ∀ v, v ∈ (∅ : gset Z) ↔ ∃ j, (j < 0)%nat ∧ pid_at input j = Some v).
  { intros v. split; [set_solver|]. intros (j & Hj & _). lia. }
  pose proof (read_processes_spec input (Z.to_nat n) 0 [] ∅ Hset) as Hread.
  change (drop (1 + 2 * 0) input) with (drop 1 input) in Hread.
  destruct (read_processes (Z.to_nat n) (drop 1 input) [] ∅) as [d|ps].
  - left. exists d. split; [|done].
    destruct Hread as (i & Hi & Herr).
    apply (entry_error_rejected input n i); [done|lia|done].
  - right. destruct Hread as (Hok & es & Hlen & Hps & Hes). simpl in Hps. subst ps.
    assert (Hok' : ∀ i, (i < Z.to_nat n)%nat → ¬ entry_error input i).
    { intros i Hi. apply Hok. lia. }
    split.
    + intros Hrej.
      destruct (rejected_entry_error input n Hn Hpos Hrej) as (i & Hi & Herr).
      by apply (Hok' i).
    + exists es. split; [by apply (read_entries_valid input n)|].
      split; [rewrite Hlen; f_equal; lia|]. split; [exact Hes|]. done.
Qed.

(** The result of the simulator on valid work units does not depend on
    the bound, once the bound is large enough. *)
Lemma kernelSimulator_result es :
  valid_work es →
  ∃ lines, ∀ fuel, (ticks_needed (pcbs_of es) < fuel)%nat →
    kernelSimulator fuel (pcbs_of es) 2 = Some (completed <$> es, lines).
Proof.
  intros Hw. pose proof (Inv_initial es Hw) as HI.
  destruct (loop_terminates es Hw (S (ticks_needed (pcbs_of es))) _ HI)
    as (st0 & _ & Hrtc0 & Hdone0); [simpl; lia|].
  destruct (rtc_run _ _ _ Hrtc0) as [heads0 Hrun0].
  exists (cout st0). intros fuel Hfuel.
  destruct (loop_terminates es Hw fuel _ HI Hfuel) as (st & Hloop & Hrtc & Hdone).
  destruct (rtc_run _ _ _ Hrtc) as [heads Hrun].
  destruct (run_to_exit_unique 2 _ _ _ _ _ Hrun Hdone Hrun0 Hdone0) as [_ ->].
  unfold kernelSimulator. rewrite Hloop. simpl.
  by rewrite (Inv_terminated es st0 (Inv_run es Hw _ _ _ HI Hrun0) Hdone0).
Qed.

(** ** Input validation *)

(** The outcome of [main] in terms of the tokens it reads. *)
Lemma ingestion_tokens input :
  (rejected input ↔ ∃ d, ∀ fuel, main fuel input = Some (failure d)) ∧
  (¬ rejected input →
   ∃ es lines,
     valid_entries es ∧ count_of input = Some (Z.of_nat (length es)) ∧
     (∀ k e, es !! k = Some e →
             pid_at input k = Some e.1 ∧ work_at input k = Some e.2) ∧
     ∀ fuel, (ticks_needed (pcbs_of es) < fuel)%nat →
       kernelSimulator fuel (pcbs_of es) 2 = Some (completed <$> es, lines) ∧
       main fuel input = Some (success lines)).
Proof.
  destruct (main_cases input) as [(d & Hrej & Hfail)|(Hok & es & Hv & Hn & Hes & Hmain)].
  - split; [|done]. split; [|done]. intros _. by exists d.
  - destruct (kernelSimulator_result es (valid_entries_work es Hv)) as [lines Hsim].
    split; [split; [done|]|].
    + intros (d & Hfail). exfalso.
      specialize (Hfail (S (ticks_needed (pcbs_of es)))).
      rewrite Hmain, Hsim in Hfail by lia. discriminate Hfail.
    + intros _. exists es, lines.
      split; [done|]. split; [done|]. split; [exact Hes|].
      intros fuel Hfuel. split; [by apply Hsim|].
      rewrite Hmain, Hsim by done. done.
Qed.

(** *** Extractions from the character stream *)

Lemma skip_ws_length s : (String.length (skip_ws s) <= String.length s)%nat.
Proof.
  induction s as [|c s IH]; simpl; [done|].
  destruct (is_space c); simpl; lia.
Qed.

Lemma read_digits_length s : ∀ d r,
  read_digits s = (d, r) →
  (String.length r <= String.length s)%nat ∧
  (d ≠ Decimal.Nil → (String.length r < String.length s)%nat).
Proof.
  induction s as [|c s IH]; intros d r; simpl.
  - intros H. inversion H; subst. done.
  - destruct (digit_of c) as [digit|] eqn:Hc.
    + destruct (read_digits s) as [d' r'] eqn:Hrd.
      intros H. inversion H; subst. destruct (IH d' r eq_refl) as [Hle _].
      split; [simpl; lia|]. intros _. simpl. lia.
    + intros H. inversion H; subst. done.
Qed.

(** A successful extraction consumes at least one character and yields an
    [int]. *)
Lemma read_number_Some negative s z r :
  read_number negative s = Some (z, r) →
  (String.length r < String.length s)%nat ∧ in_int_range z = true.
Proof.
  unfold read_number. destruct (read_digits s) as [d rest] eqn:Hrd.
  destruct (read_digits_length s d rest Hrd) as [_ Hlt].
  destruct d; try discriminate;
    (destruct (in_int_range _) eqn:Hr; [|discriminate]);
    intros H; inversion H; subst; (split; [|done]); apply Hlt; discriminate.
Qed.

Lemma cin_extract_Some s z r :
  cin_extract s = Some (z, r) →
  (String.length r < String.length s)%nat ∧ in_int_range z = true.
Proof.
  unfold cin_extract. pose proof (skip_ws_length s) as Hws.
  destruct (skip_ws s) as [|c s1]; [discriminate|]. simpl in Hws.
  destruct (Ascii.eqb c "-"); [|destruct (Ascii.eqb c "+")];
    intros H; apply read_number_Some in H as [Hlt Hr]; simpl in Hlt;
    (split; [lia|done]).
Qed.

Lemma lex_fuel_enough n : ∀ m s,
  (String.length s <= n)%nat → (String.length s <= m)%nat →
  lex_fuel n s = lex_fuel m s.
Proof.
  induction n as [|n IH]; intros m s Hn Hm.
  - destruct s; [|simpl in Hn; lia]. by destruct m.
  - destruct m as [|m].
    + destruct s; [done|simpl in Hm; lia].
    + simpl. destruct (cin_extract s) as [[z r]|] eqn:He; [|done].
      destruct (cin_extract_Some s z r He) as [Hlt _].
      f_equal. apply IH; lia.
Qed.

(** The first extraction on a stream reads the first token of the stream
    and leaves the tokens of the rest. *)
Lemma lex_extract s :
  extract_int (lex s) =
  match cin_extract s with
  | Some (z, r) => Some (z, lex r)
  | None => None
  end.
Proof.
  unfold lex. destruct (String.length s) as [|n] eqn:Hlen.
  - destruct s; [done|discriminate].
  - simpl. destruct (cin_extract s) as [[z r]|] eqn:He; [|done].
    destruct (cin_extract_Some s z r He) as [Hlt Hr].
    simpl. rewrite Hr. do 2 f_equal. apply lex_fuel_enough; lia.
Qed.

Lemma read_processes_stdin_lex n : ∀ s ps pids,
  read_processes_stdin n s ps pids = read_processes n (lex s) ps pids.
Proof.
  induction n as [|n IH]; intros s ps pids; [done|].
  cbn [read_processes_stdin read_processes]. rewrite lex_extract.
  destruct (cin_extract s) as [[v s1]|]; [|done].
  rewrite lex_extract. destruct (cin_extract s1) as [[w s2]|]; [|done].
  destruct (w <=? 0); [done|]. destruct (bool_decide (v ∈ pids)); [done|].
  apply IH.
Qed.

(** [main] on the characters of the input is [main] on its tokens. *)
Lemma main_stdin_lex fuel s : main_stdin fuel s = main fuel (lex s).
Proof.
  unfold main_stdin, main. rewrite lex_extract.
  destruct (cin_extract s) as [[n rest]|]; [|done].
  destruct (n <=? 0); [done|]. by rewrite read_processes_stdin_lex.
Qed.

(** On the input ["1 5 3abc"] the third word is not an integer, so the
    input shows a malformed pid/work pair; the program reads the work 3,
    leaves ["abc"] unread and runs the simulation. *)
Lemma ingestion_claim_counterexample : ¬ ingestion_claim "1 5 3abc".
Proof.
  intros [Hfail _].
  assert (Hrej : rejected (spec_tokens "1 5 3abc")).
  { exists MalformedEntryError. exists 1, 0%nat.
    split; [reflexivity|]. split; [reflexivity|]. right. reflexivity. }
  destruct (Hfail Hrej) as [d Hd]. specialize (Hd 3%nat).
  vm_compute in Hd. discriminate Hd.
Qed.

(** C6 (amended): [main] stops with exit status 1, one diagnostic on the
    error stream and nothing on standard output, for every bound on the
    loop (the simulator is not entered), exactly when, reading the input
    as [std::cin >> int] does, the extraction of the count fails, the count
    is not positive, an extraction of a pid or of a work of the first N
    pairs fails, a work is not positive or a pid was read before.
    Characters that follow the digits of a number are no error of their
    own: they are left for the next extraction.  On any other input [main]
    runs the simulator on the entries read and exits with status 0 after
    the closing line. *)
Theorem ingestion_outcome s :
  (rejected (lex s) ↔
   ∃ d, ∀ fuel, main_stdin fuel s =
                Some {| exit_status := 1; stdout := []; stderr := [d] |}) ∧
  (¬ rejected (lex s) →
   ∃ es lines,
     valid_entries es ∧ count_of (lex s) = Some (Z.of_nat (length es)) ∧
     (∀ k e, es !! k = Some e →
             pid_at (lex s) k = Some e.1 ∧ work_at (lex s) k = Some e.2) ∧
     ∀ fuel, (ticks_needed (pcbs_of es) < fuel)%nat →
       kernelSimulator fuel (pcbs_of es) 2 = Some (completed <$> es, lines) ∧
       main_stdin fuel s =
         Some {| exit_status := 0;
                 stdout := lines ++ ["All processes completed."%string];
                 stderr := [] |}).
Proof.
  destruct (ingestion_tokens (lex s)) as [Hiff Hok]. split.
  - rewrite Hiff. split; intros [d Hd]; exists d; intros fuel;
      [rewrite main_stdin_lex|rewrite <- main_stdin_lex]; apply Hd.
  - intros Hnr. destruct (Hok Hnr) as (es & lines & Hv & Hn & Hes & Hrun).
    exists es, lines. split; [done|]. split; [done|]. split; [done|].
    intros fuel Hfuel. destruct (Hrun fuel Hfuel) as [Hsim Hmain].
    split; [done|]. by rewrite main_stdin_lex.
Qed.

(** Scenario A from the characters of its input. *)
Example scenario_A_stdin :
  lex "2 1 3 2 2" = [Int 2; Int 1; Int 3; Int 2; Int 2; Malformed] ∧
  main_stdin 4 "2 1 3 2 2" = main 4 (tokens_of scenario_A).
Proof. split; reflexivity. Qed.

(** ** Pid values *)

Lemma read_processes_tokens es : ∀ rest ps pids,
  Forall (λ e, INT_MIN <= e.1 <= INT_MAX) es → valid_work es →
  NoDup (es.*1) → (∀ v, v ∈ es.*1 → v ∉ pids) →
  read_processes (length es) (flat_map (λ e, [Int e.1; Int e.2]) es ++ rest) ps pids
  = inr (ps ++ pcbs_of es).
Proof.
  induction es as [|[v w] es IH]; intros rest ps pids Hp Hw Hnd Hfresh.
  { simpl. by rewrite app_nil_r. }
  apply Forall_cons in Hp as [Hv Hp]. apply Forall_cons in Hw as [Hwk Hw].
  rewrite fmap_cons in Hnd. apply NoDup_cons in Hnd as [Hni Hnd].
  simpl in Hv, Hwk, Hni. unfold INT_MAX in Hwk.
  cbn [length flat_map app read_processes extract_int fst snd].
  rewrite (proj2 (in_int_range_spec v)) by done.
  cbn [extract_int].
  rewrite (proj2 (in_int_range_spec w)) by (unfold INT_MIN, INT_MAX; lia).
  rewrite (proj2 (Z.leb_gt w 0)) by lia.
  rewrite bool_decide_eq_false_2.
  2:{ apply Hfresh. rewrite fmap_cons. left. }
  rewrite IH; try done.
  - simpl. by rewrite <- app_assoc.
  - intros u Hu. rewrite elem_of_union, elem_of_singleton.
    intros [->|Hin]; [done|]. apply (Hfresh u); [|done].
    rewrite fmap_cons. by right.
Qed.

(** C10: the checks of [main] constrain a pid only to be an [int] distinct
    from the pids before it.  Whatever the pids of a valid input are (zero
    and negative values included), the entries are accepted, the simulator
    runs to completion on records carrying those pids, and the program exits
    with status 0. *)
Theorem any_pid_accepted es rest :
  valid_entries es →
  ∃ lines, ∀ fuel, (ticks_needed (pcbs_of es) < fuel)%nat →
    kernelSimulator fuel (pcbs_of es) 2 = Some (completed <$> es, lines) ∧
    pid <$> (completed <$> es) = es.*1 ∧
    main fuel (tokens_of es ++ rest) =
      Some {| exit_status := 0;
              stdout := lines ++ ["All processes completed."%string];
              stderr := [] |}.
Proof.
  intros Hv. destruct (kernelSimulator_result es (valid_entries_work es Hv)) as [lines Hsim].
  destruct Hv as (Hpos & Hmax & Hp & Hw & Hnd).
  exists lines. intros fuel Hfuel. split; [by apply Hsim|]. split.
  { rewrite <- list_fmap_compose. done. }
  unfold main, tokens_of. cbn [app extract_int].
  rewrite (proj2 (in_int_range_spec _)) by (unfold INT_MIN; lia).
  rewrite (proj2 (Z.leb_gt _ 0)) by lia.
  rewrite Nat2Z.id, read_processes_tokens; try done.
  simpl. by rewrite Hsim.
Qed.

Lemma valid_low_pids : valid_entries low_pids.
Proof.
  unfold valid_entries, valid_work, low_pids, INT_MIN, INT_MAX; simpl.
  repeat split; try lia.
  - repeat constructor; simpl; lia.
  - repeat constructor; simpl; lia.
  - apply NoDup_cons. split; [|apply NoDup_singleton].
    intros H. apply list_elem_of_singleton in H. discriminate.
Qed.

Lemma any_pid_accepted_witness :
  valid_entries low_pids ∧
  ∃ lines, ∀ fuel, (ticks_needed (pcbs_of low_pids) < fuel)%nat →
    kernelSimulator fuel (pcbs_of low_pids) 2 = Some (completed <$> low_pids, lines) ∧
    pid <$> (completed <$> low_pids) = low_pids.*1 ∧
    main fuel (tokens_of low_pids ++ []) =
      Some {| exit_status := 0;
              stdout := lines ++ ["All processes completed."%string];
              stderr := [] |}.
Proof.
  split; [exact valid_low_pids|].
  exact (any_pid_accepted low_pids [] valid_low_pids).
Defined.

(** The trace of the two processes with pids 0 and -5: the lines are in
    ascending pid order, -5 first. *)
Example low_pids_trace :
  main 4 (tokens_of low_pids) =
  Some {| exit_status := 0;
          stdout := ["Interrupt 1:"; "PID -5: Ready, at pc 0"; "PID 0: Terminated, at pc 1";
                     "Interrupt 2:"; "PID -5: Running, at pc 2"; "PID 0: Terminated, at pc 1";
                     "Interrupt 3:"; "PID -5: Terminated, at pc 3";
                     "PID 0: Terminated, at pc 1";
                     "All processes completed."]%string;
          stderr := [] |}.
Proof. reflexivity. Qed.
Example scenario_B :
  main 5 [Int 1; Int 5; Int 1] =
  Some {| exit_status := 0;
          stdout := ["Interrupt 1:"; "PID 5: Terminated, at pc 1";
                     "All processes completed."]%string;
          stderr := [] |}.
Proof. vm_compute. reflexivity. Qed.

Example scenario_C :
  main 5 [Int 2; Int 7; Int 1; Int 7; Int 2] =
  Some (failure "Error: Duplicate PID 7 detected").
Proof. vm_compute. reflexivity. Qed.


(** * Further properties of the simulator *)

(** ** The completion check *)

(** X1: [allProcessesTerminated] is true exactly when every record is in state
    "Terminated" (in particular on the empty vector), and false exactly
    when some index holds a record in another state. *)
Theorem completion_check_correct ps :
  (allProcessesTerminated ps = true ↔
   ∀ i p, ps !! i = Some p → state p = "Terminated"%string) ∧
  (allProcessesTerminated ps = false ↔
   ∃ i p, ps !! i = Some p ∧ state p ≠ "Terminated"%string).
Proof.
  assert (Htrue : allProcessesTerminated ps = true ↔
                  ∀ i p, ps !! i = Some p → state p = "Terminated"%string).
  { rewrite allProcessesTerminated_Forall. apply Forall_lookup. }
  split; [exact Htrue|]. split.
  - apply allProcessesTerminated_false.
  - intros (i & p & Hp & Hs).
    destruct (allProcessesTerminated ps) eqn:Hall; [|done].
    exfalso. apply Hs. by apply (proj1 Htrue eq_refl i p).
Qed.

(** ** What the loop never touches *)

Lemma dispatch_total_work q p : total_work (dispatch q p) = total_work p.
Proof.
  unfold dispatch, set_pc, set_state; simpl.
  by destruct (wrap_int (pc p + Z.min q (wrap_int (total_work p - pc p))) >=? total_work p).
Qed.

Lemma fmap_insert_same {A B} (f : A → B) (l : list A) i x y :
  l !! i = Some x → f y = f x → f <$> <[i := y]> l = f <$> l.
Proof.
  intros Hx Hf. rewrite list_fmap_insert, Hf.
  apply list_insert_id. by rewrite list_lookup_fmap, Hx.
Qed.

Lemma tick_identity q st st' :
  tick q st = Some st' →
  pid <$> pcbs st' = pid <$> pcbs st ∧
  total_work <$> pcbs st' = total_work <$> pcbs st.
Proof.
  unfold tick, before_print.
  destruct (readyQueue st) as [|i rest] eqn:Hq; simpl.
  - intros H. inversion H; subst; simpl. done.
  - destruct (pcbs st !! i) as [p|] eqn:Hp; simpl; [|discriminate].
    assert (Hi : (i < length (pcbs st))%nat) by (eapply lookup_lt_Some; eauto).
    unfold requeue, emit; simpl. rewrite list_lookup_insert_eq by done. simpl.
    destruct (pc (dispatch q p) <? total_work (dispatch q p));
      intros H; inversion H; subst; simpl; rewrite ?list_insert_insert_eq.
    + split; apply (fmap_insert_same _ _ i p); try done; simpl.
      * apply dispatch_pid.
      * apply dispatch_total_work.
    + split; apply (fmap_insert_same _ _ i p); try done.
      * apply dispatch_pid.
      * apply dispatch_total_work.
Qed.

Lemma loop_run fuel q : ∀ st st',
  loop fuel q st = Some st' →
  ∃ heads, run q st heads st' ∧ allProcessesTerminated (pcbs st') = true ∧
           (length heads < fuel)%nat.
Proof.
  induction fuel as [|fuel IH]; intros st st' Hloop; [discriminate|].
  simpl in Hloop. destruct (allProcessesTerminated (pcbs st)) eqn:Hall.
  - inversion Hloop; subst. exists []. repeat split; [constructor|done|simpl; lia].
  - destruct (tick q st) as [st1|] eqn:Htick; simpl in Hloop; [|discriminate].
    destruct (IH st1 st' Hloop) as (heads & Hrun & Hdone & Hlen).
    exists (st :: heads). repeat split; [|done|simpl; lia].
    econstructor; [|exact Hrun]. by constructor.
Qed.

Lemma run_identity q st heads st' :
  run q st heads st' →
  pid <$> pcbs st' = pid <$> pcbs st ∧
  total_work <$> pcbs st' = total_work <$> pcbs st.
Proof.
  induction 1 as [st|st st1 heads st2 [? ? _ Htick] Hrun [IHp IHw]]; [done|].
  destruct (tick_identity q _ _ Htick) as [Hp Hw]. split; congruence.
Qed.

(** X2: whenever [kernelSimulator] returns, for any vector and any quantum, the
    vector it leaves has the same pids and the same work totals in the same
    positions as the vector it was given, and every record is Terminated. *)
Theorem kernelSimulator_keeps_identity fuel ps q final lines :
  kernelSimulator fuel ps q = Some (final, lines) →
  pid <$> final = pid <$> ps ∧
  total_work <$> final = total_work <$> ps ∧
  length final = length ps ∧
  Forall (λ p, state p = "Terminated"%string) final.
Proof.
  unfold kernelSimulator.
  destruct (loop fuel q (initial ps)) as [st|] eqn:Hloop; simpl; [|discriminate].
  intros H. inversion H; subst final lines.
  destruct (loop_run fuel q _ _ Hloop) as (heads & Hrun & Hdone & _).
  destruct (run_identity q _ _ _ Hrun) as [Hp Hw]. simpl in Hp, Hw.
  split; [done|]. split; [done|]. split.
  - rewrite <- (length_fmap pid (pcbs st)), Hp. apply length_fmap.
  - by apply allProcessesTerminated_Forall.
Qed.

Lemma kernelSimulator_keeps_identity_witness :
  kernelSimulator 4 (pcbs_of scenario_A) 2 =
    Some (pcbs scenario_A_tick3, cout scenario_A_tick3) ∧
  pid <$> pcbs scenario_A_tick3 = pid <$> pcbs_of scenario_A ∧
  total_work <$> pcbs scenario_A_tick3 = total_work <$> pcbs_of scenario_A ∧
  length (pcbs scenario_A_tick3) = length (pcbs_of scenario_A) ∧
  Forall (λ p, state p = "Terminated"%string) (pcbs scenario_A_tick3).
Proof.
  assert (H : kernelSimulator 4 (pcbs_of scenario_A) 2 =
              Some (pcbs scenario_A_tick3, cout scenario_A_tick3)) by reflexivity.
  split; [exact H|].
  exact (kernelSimulator_keeps_identity 4 _ 2 _ _ H).
Defined.

(** ** The shape of the output *)

Lemma printProcessStates_length ps t :
  length (printProcessStates ps t) = S (length ps).
Proof.
  unfold printProcessStates. simpl.
  by rewrite length_map, (Permutation_length (sort_by_pid_perm ps)).
Qed.

Lemma tick_output q st st' :
  tick q st = Some st' →
  ∃ tr, observed q st = Some tr ∧ length tr = length (pcbs st) ∧
        length (pcbs st') = length (pcbs st) ∧
        currentTime st' = wrap_int (currentTime st + 1) ∧
        cout st' = cout st ++ printProcessStates tr (wrap_int (currentTime st + 1)).
Proof.
  unfold tick, observed, before_print.
  destruct (readyQueue st) as [|i rest] eqn:Hq; simpl.
  - intros H. inversion H; subst; simpl. by exists (pcbs st).
  - destruct (pcbs st !! i) as [p|] eqn:Hp; simpl; [|discriminate].
    assert (Hi : (i < length (pcbs st))%nat) by (eapply lookup_lt_Some; eauto).
    unfold requeue, emit; simpl. rewrite list_lookup_insert_eq by done. simpl.
    destruct (pc (dispatch q p) <? total_work (dispatch q p));
      intros H; inversion H; subst; simpl;
      exists (<[i := dispatch q p]> (pcbs st)); rewrite ?length_insert; done.
Qed.

Lemma run_length q st heads st' :
  run q st heads st' → length (pcbs st') = length (pcbs st).
Proof.
  intros Hrun. destruct (run_identity q _ _ _ Hrun) as [Hp _].
  by rewrite <- (length_fmap pid (pcbs st')), Hp, length_fmap.
Qed.

Lemma run_prefix q st heads st' k hk :
  run q st heads st' → heads !! k = Some hk → run q st (take k heads) hk.
Proof.
  intros Hrun. revert k.
  induction Hrun as [st|st st1 heads st2 Hstep Hrun IH]; intros k Hk; [done|].
  destruct k as [|k]; simpl in *.
  - inversion Hk; subst. constructor.
  - econstructor; [exact Hstep|]. by apply IH.
Qed.

Lemma run_lookup_step q st heads st' k hk :
  run q st heads st' → heads !! k = Some hk →
  ∃ st1, allProcessesTerminated (pcbs hk) = false ∧ tick q hk = Some st1.
Proof.
  intros Hrun. revert k.
  induction Hrun as [st|st st1 heads st2 [? ? Hall Htick] Hrun IH]; intros k Hk; [done|].
  destruct k as [|k]; simpl in *.
  - inversion Hk; subst. by eexists.
  - by apply (IH k).
Qed.

Lemma run_currentTime q st heads st' :
  run q st heads st' →
  INT_MIN <= currentTime st →
  currentTime st + Z.of_nat (length heads) <= INT_MAX →
  currentTime st' = currentTime st + Z.of_nat (length heads).
Proof.
  induction 1 as [st|st st1 heads st2 [? ? _ Htick] Hrun IH]; intros Hlo Hhi.
  - simpl. lia.
  - destruct (tick_output q _ _ Htick) as (tr & _ & _ & _ & Ht & _).
    simpl length in *.
    rewrite wrap_int_id in Ht by lia.
    rewrite IH; rewrite Ht; lia.
Qed.

Lemma run_appends q st heads st' :
  run q st heads st' →
  ∃ out, cout st' = cout st ++ out ∧
         length out = (length heads * S (length (pcbs st)))%nat.
Proof.
  induction 1 as [st|st st1 heads st2 [? ? _ Htick] Hrun (out & Hout & Hlen)].
  - exists []. by rewrite app_nil_r.
  - destruct (tick_output q _ _ Htick) as (tr & _ & Htr & Hsize & _ & Hc).
    rewrite Hout, Hc, <- app_assoc. eexists. split; [reflexivity|].
    rewrite length_app, printProcessStates_length, Hlen, Htr, Hsize. simpl. lia.
Qed.

(** X3: every iteration of the loop, for any vector and any quantum, appends
    one block of [1 + size] lines to the output and writes nothing else:
    a run of [n] iterations keeps what was already written and adds exactly
    [n * (1 + size)] lines after it, and the vector keeps its size. *)
Theorem run_output q st heads st' :
  run q st heads st' →
  length (pcbs st') = length (pcbs st) ∧
  ∃ out, cout st' = cout st ++ out ∧
         length out = (length heads * S (length (pcbs st)))%nat.
Proof.
  intros Hrun.
  split; [exact (run_length q _ _ _ Hrun)|exact (run_appends q _ _ _ Hrun)].
Qed.

Lemma run_output_witness :
  run 2 (initial (pcbs_of scenario_A))
      [initial (pcbs_of scenario_A); scenario_A_tick1; scenario_A_tick2]
      scenario_A_tick3 ∧
  length (pcbs scenario_A_tick3) = length (pcbs (initial (pcbs_of scenario_A))) ∧
  ∃ out, cout scenario_A_tick3 = cout (initial (pcbs_of scenario_A)) ++ out ∧
         length out =
           (length [initial (pcbs_of scenario_A); scenario_A_tick1; scenario_A_tick2]
            * S (length (pcbs (initial (pcbs_of scenario_A)))))%nat.
Proof.
  assert (Hrun : run 2 (initial (pcbs_of scenario_A))
                   [initial (pcbs_of scenario_A); scenario_A_tick1; scenario_A_tick2]
                   scenario_A_tick3).
  { destruct scenario_A_steps as (H1 & H2 & H3).
    repeat (econstructor; [eassumption|]). constructor. }
  split; [exact Hrun|].
  exact (run_output 2 _ _ _ Hrun).
Defined.

(** X4: the blocks are numbered from 1 in steps of 1: as long as the count fits
    in an [int], the block written by iteration [k] (counting from 0) of
    [kernelSimulator], for any vector and quantum, is the header of tick
    [k + 1] followed by the lines of the vector at that moment, one per
    record, in non-decreasing pid order. *)
Theorem interrupt_numbering q ps heads st' k hk :
  run q (initial ps) heads st' →
  Z.of_nat (length heads) <= INT_MAX →
  heads !! k = Some hk →
  ∃ st1 tr sorted,
    tick q hk = Some st1 ∧ observed q hk = Some tr ∧
    currentTime st1 = Z.of_nat (S k) ∧
    cout st1 = cout hk ++ interrupt_line (Z.of_nat (S k)) :: map pcb_line sorted ∧
    sorted ≡ₚ tr ∧ StronglySorted (λ a b, pid a <= pid b) sorted.
Proof.
  intros Hrun Hmax Hk.
  pose proof (run_prefix q _ _ _ k hk Hrun Hk) as Hpre.
  destruct (run_lookup_step q _ _ _ k hk Hrun Hk) as (st1 & _ & Htick).
  destruct (tick_output q _ _ Htick) as (tr & Hobs & _ & _ & Ht & Hc).
  assert (Hlen : (k < length heads)%nat) by (eapply lookup_lt_Some; eauto).
  assert (Htime : currentTime hk = Z.of_nat k).
  { rewrite (run_currentTime q _ _ _ Hpre); simpl; unfold INT_MIN;
      rewrite ?length_take; lia. }
  rewrite Htime in Ht, Hc.
  rewrite wrap_int_id in Ht, Hc by (unfold INT_MIN, INT_MAX in *; lia).
  replace (Z.of_nat k + 1) with (Z.of_nat (S k)) in Ht, Hc by lia.
  exists st1, tr, (sort_by_pid tr).
  split; [done|]. split; [done|]. split; [done|]. split; [done|].
  split; [apply sort_by_pid_perm|apply sort_by_pid_sorted].
Qed.

Lemma interrupt_numbering_witness :
  run 2 (initial (pcbs_of scenario_A))
      [initial (pcbs_of scenario_A); scenario_A_tick1; scenario_A_tick2]
      scenario_A_tick3 ∧
  Z.of_nat (length [initial (pcbs_of scenario_A); scenario_A_tick1; scenario_A_tick2])
    <= INT_MAX ∧
  [initial (pcbs_of scenario_A); scenario_A_tick1; scenario_A_tick2] !! 1%nat
    = Some scenario_A_tick1 ∧
  ∃ st1 tr sorted,
    tick 2 scenario_A_tick1 = Some st1 ∧ observed 2 scenario_A_tick1 = Some tr ∧
    currentTime st1 = Z.of_nat 2 ∧
    cout st1 = cout scenario_A_tick1 ++
               interrupt_line (Z.of_nat 2) :: map pcb_line sorted ∧
    sorted ≡ₚ tr ∧ StronglySorted (λ a b, pid a <= pid b) sorted.
Proof.
  assert (Hrun : run 2 (initial (pcbs_of scenario_A))
                   [initial (pcbs_of scenario_A); scenario_A_tick1; scenario_A_tick2]
                   scenario_A_tick3).
  { destruct scenario_A_steps as (H1 & H2 & H3).
    repeat (econstructor; [eassumption|]). constructor. }
  assert (Hmax : Z.of_nat (length [initial (pcbs_of scenario_A); scenario_A_tick1;
                                   scenario_A_tick2]) <= INT_MAX)
    by (vm_compute; discriminate).
  assert (Hk : [initial (pcbs_of scenario_A); scenario_A_tick1; scenario_A_tick2] !! 1%nat
               = Some scenario_A_tick1) by reflexivity.
  split; [exact Hrun|]. split; [exact Hmax|]. split; [exact Hk|].
  exact (interrupt_numbering 2 _ _ _ 1 _ Hrun Hmax Hk).
Defined.

(** ** The number of ticks *)





(** ** The trace printer on any vector *)

(** X6: for any vector, duplicates of a pid and the empty vector included, the
    block printed is the header followed by one line per record, the
    records taken in non-decreasing pid order. *)
Theorem printProcessStates_any_vector ps t :
  ∃ sorted,
    printProcessStates ps t = interrupt_line t :: map pcb_line sorted ∧
    sorted ≡ₚ ps ∧
    StronglySorted (λ a b, pid a <= pid b) sorted ∧
    length (printProcessStates ps t) = S (length ps).
Proof.
  exists (sort_by_pid ps). split; [done|]. split; [apply sort_by_pid_perm|].
  split; [apply sort_by_pid_sorted|apply printProcessStates_length].
Qed.

Lemma strictly_sorted_unique (l1 l2 : list PCB) :
  StronglySorted (λ a b, pid a < pid b) l1 →
  StronglySorted (λ a b, pid a < pid b) l2 →
  l1 ≡ₚ l2 → l1 = l2.
Proof.
  intros Hs1. revert l2.
  induction Hs1 as [|a l1 Hs1 IH Ha]; intros l2 Hs2 Hperm.
  - by apply Permutation_nil_l in Hperm.
  - destruct Hs2 as [|b l2 Hs2 Hb].
    { by apply Permutation_nil_r in Hperm. }
    assert (Hab : a = b).
    { assert (Hin1 : a ∈ b :: l2) by (rewrite <- Hperm; left).
      assert (Hin2 : b ∈ a :: l1) by (rewrite Hperm; left).
      apply elem_of_cons in Hin1 as [|Hin1]; [done|].
      apply elem_of_cons in Hin2 as [|Hin2]; [done|].
      rewrite Forall_forall in Ha, Hb.
      pose proof (Ha b Hin2). pose proof (Hb a Hin1). simpl in *. lia. }
    subst b. f_equal. apply IH; [done|].
    by apply (Permutation_cons_inv (a:=a)).
Qed.

(** X7: when the pids are pairwise distinct, the block printed does not depend
    on the order of the records in the vector. *)
Theorem printProcessStates_order_independent ps ps' t :
  NoDup (pid <$> ps) → ps ≡ₚ ps' →
  printProcessStates ps t = printProcessStates ps' t.
Proof.
  intros Hnd Hperm. unfold printProcessStates. do 2 f_equal.
  apply strictly_sorted_unique.
  - apply sorted_strict; [apply sort_by_pid_sorted|].
    by rewrite (sort_by_pid_perm ps).
  - apply sorted_strict; [apply sort_by_pid_sorted|].
    by rewrite (sort_by_pid_perm ps'), <- Hperm.
  - by rewrite !sort_by_pid_perm.
Qed.

Lemma printProcessStates_order_independent_witness :
  NoDup (pid <$> [mkPCB 7 "Ready" 0 3; mkPCB 2 "Running" 1 4]) ∧
  [mkPCB 7 "Ready" 0 3; mkPCB 2 "Running" 1 4] ≡ₚ
    [mkPCB 2 "Running" 1 4; mkPCB 7 "Ready" 0 3] ∧
  printProcessStates [mkPCB 7 "Ready" 0 3; mkPCB 2 "Running" 1 4] 5 =
  printProcessStates [mkPCB 2 "Running" 1 4; mkPCB 7 "Ready" 0 3] 5.
Proof.
  assert (Hnd : NoDup (pid <$> [mkPCB 7 "Ready" 0 3; mkPCB 2 "Running" 1 4])).
  { simpl. apply NoDup_cons. split; [|apply NoDup_singleton].
    intros H. apply list_elem_of_singleton in H. discriminate. }
  assert (Hperm : [mkPCB 7 "Ready" 0 3; mkPCB 2 "Running" 1 4] ≡ₚ
                  [mkPCB 2 "Running" 1 4; mkPCB 7 "Ready" 0 3])
    by apply Permutation_swap.
  split; [exact Hnd|]. split; [exact Hperm|].
  exact (printProcessStates_order_independent _ _ 5 Hnd Hperm).
Defined.

(** ** The queue covers the unfinished records, for any vector and quantum *)

Lemma dispatch_finished q p :
  (pc (dispatch q p) <? total_work (dispatch q p)) = false →
  state (dispatch q p) = "Terminated"%string.
Proof.
  unfold dispatch, set_pc, set_state; simpl.
  destruct (Z.geb_spec (wrap_int (pc p + Z.min q (wrap_int (total_work p - pc p))))
                       (total_work p)) as [Hge|Hlt]; simpl; [done|].
  intros H. apply Z.ltb_ge in H. lia.
Qed.

Lemma queue_covers_initial ps : queue_covers (initial ps).
Proof.
  split; simpl.
  - intros i p Hp. left. apply elem_of_seq. apply lookup_lt_Some in Hp. lia.
  - intros i Hi. apply elem_of_seq in Hi. lia.
Qed.

Lemma queue_covers_tick q st st' :
  queue_covers st → tick q st = Some st' → queue_covers st'.
Proof.
  intros [Hcov Hidx]. unfold tick, before_print.
  destruct (readyQueue st) as [|i rest] eqn:Hq; simpl.
  - intros H. inversion H; subst. split; simpl.
    + intros j p Hp. destruct (Hcov j p Hp) as [Hin|Ht]; [|by right].
      by apply not_elem_of_nil in Hin.
    + intros j Hj. by apply not_elem_of_nil in Hj.
  - destruct (pcbs st !! i) as [p|] eqn:Hp; simpl; [|discriminate].
    assert (Hi : (i < length (pcbs st))%nat) by (eapply lookup_lt_Some; eauto).
    unfold requeue, emit; simpl. rewrite list_lookup_insert_eq by done. simpl.
    destruct (pc (dispatch q p) <? total_work (dispatch q p)) eqn:Hlt;
      intros H; inversion H; subst; clear H; split; simpl;
      rewrite ?length_insert.
    + intros j r Hr. destruct (decide (j = i)) as [->|Hne].
      * left. apply elem_of_app. right. left.
      * rewrite !list_lookup_insert_ne in Hr by done.
        destruct (Hcov j r Hr) as [Hin|Ht]; [|by right].
        left. apply elem_of_app. left.
        apply elem_of_cons in Hin as [|Hin]; [congruence|done].
    + intros j Hj. apply elem_of_app in Hj as [Hj|Hj].
      * apply Hidx. by right.
      * apply list_elem_of_singleton in Hj. by subst.
    + intros j r Hr. destruct (decide (j = i)) as [->|Hne].
      * rewrite list_lookup_insert_eq in Hr by done. inversion Hr; subst r.
        right. by apply dispatch_finished.
      * rewrite list_lookup_insert_ne in Hr by done.
        destruct (Hcov j r Hr) as [Hin|Ht]; [|by right].
        left. apply elem_of_cons in Hin as [|Hin]; [congruence|done].
    + intros j Hj. apply Hidx. by right.
Qed.

Lemma queue_covers_rtc q st st' :
  queue_covers st → rtc (step q) st st' → queue_covers st'.
Proof.
  intros Hc Hrtc. induction Hrtc as [st|st st1 st2 Hstep Hrtc IH]; [done|].
  apply IH. destruct Hstep as [? ? _ Htick]. by eapply queue_covers_tick.
Qed.

(** X8: for every vector and every quantum given to [kernelSimulator], valid or
    not: whenever the completion check fails the queue is not empty and its
    front is an index of the vector, so the body dispatches a record; the
    branch for an empty queue is never taken and no index is out of range. *)
Theorem dispatch_always_possible q ps st :
  rtc (step q) (initial ps) st →
  allProcessesTerminated (pcbs st) = false →
  ∃ i rest p st',
    readyQueue st = i :: rest ∧ pcbs st !! i = Some p ∧
    tick q st = Some st' ∧
    observed q st = Some (<[i := dispatch q p]> (pcbs st)).
Proof.
  intros Hrtc Hall.
  destruct (queue_covers_rtc q _ _ (queue_covers_initial ps) Hrtc) as [Hcov Hidx].
  destruct (allProcessesTerminated_false _ Hall) as (j & r & Hr & Hs).
  destruct (Hcov j r Hr) as [Hin|Ht]; [|contradiction].
  destruct (readyQueue st) as [|i rest] eqn:Hq.
  { by apply not_elem_of_nil in Hin. }
  assert (Hi : (i < length (pcbs st))%nat) by (apply Hidx; left).
  destruct (lookup_lt_is_Some_2 _ _ Hi) as [p Hp].
  exists i, rest, p.
  unfold tick, observed, before_print. rewrite Hq, Hp. simpl.
  unfold requeue, emit; simpl. rewrite list_lookup_insert_eq by done. simpl.
  destruct (pc (dispatch q p) <? total_work (dispatch q p)); eexists; done.
Qed.

Lemma dispatch_always_possible_witness :
  rtc (step (-1)) (initial [mkPCB 4 "Terminated" 9 3; mkPCB 4 "Running" 0 0])
      (initial [mkPCB 4 "Terminated" 9 3; mkPCB 4 "Running" 0 0]) ∧
  allProcessesTerminated
    (pcbs (initial [mkPCB 4 "Terminated" 9 3; mkPCB 4 "Running" 0 0])) = false ∧
  ∃ i rest p st',
    readyQueue (initial [mkPCB 4 "Terminated" 9 3; mkPCB 4 "Running" 0 0]) = i :: rest ∧
    pcbs (initial [mkPCB 4 "Terminated" 9 3; mkPCB 4 "Running" 0 0]) !! i = Some p ∧
    tick (-1) (initial [mkPCB 4 "Terminated" 9 3; mkPCB 4 "Running" 0 0]) = Some st' ∧
    observed (-1) (initial [mkPCB 4 "Terminated" 9 3; mkPCB 4 "Running" 0 0]) =
      Some (<[i := dispatch (-1) p]>
              (pcbs (initial [mkPCB 4 "Terminated" 9 3; mkPCB 4 "Running" 0 0]))).
Proof.
  assert (Hr : rtc (step (-1)) (initial [mkPCB 4 "Terminated" 9 3; mkPCB 4 "Running" 0 0])
                   (initial [mkPCB 4 "Terminated" 9 3; mkPCB 4 "Running" 0 0]))
    by apply rtc_refl.
  assert (Hall : allProcessesTerminated
                   (pcbs (initial [mkPCB 4 "Terminated" 9 3; mkPCB 4 "Running" 0 0]))
                 = false) by reflexivity.
  split; [exact Hr|]. split; [exact Hall|].
  exact (dispatch_always_possible (-1) _ _ Hr Hall).
Defined.

(** ** A quantum of zero *)

Lemma dispatch_zero p :
  0 <= pc p → pc p < total_work p → total_work p <= INT_MAX →
  dispatch 0 p = set_state p "Running".
Proof.
  intros H0 Hlt Hmax. unfold dispatch, set_pc, set_state; simpl.
  unfold INT_MAX in Hmax.
  rewrite (wrap_int_id (total_work p - pc p)) by (unfold INT_MIN, INT_MAX; lia).
  rewrite Z.min_l by lia. rewrite Z.add_0_r.
  rewrite wrap_int_id by (unfold INT_MIN, INT_MAX; lia).
  destruct (Z.geb_spec (pc p) (total_work p)); [lia|done].
Qed.

Lemma stalled_tick st st' : stalled (pcbs st) → tick 0 st = Some st' → stalled (pcbs st').
Proof.
  intros [Hne HF]. unfold tick, before_print.
  destruct (readyQueue st) as [|i rest] eqn:Hq; simpl.
  - intros H. inversion H; subst. by split.
  - destruct (pcbs st !! i) as [p|] eqn:Hp; simpl; [|discriminate].
    assert (Hi : (i < length (pcbs st))%nat) by (eapply lookup_lt_Some; eauto).
    destruct (proj1 (Forall_lookup _ _) HF i p Hp) as (Hs & H0 & Hlt & Hmax).
    unfold requeue, emit; simpl. rewrite list_lookup_insert_eq by done. simpl.
    rewrite (dispatch_zero p) by done. simpl.
    rewrite (proj2 (Z.ltb_lt _ _)) by done.
    intros H. inversion H; subst; simpl. rewrite list_insert_insert_eq. split.
    + intros Hnil. apply (f_equal length) in Hnil.
      rewrite length_insert in Hnil. simpl in Hnil. lia.
    + apply Forall_insert; [done|]. unfold set_state; simpl. by repeat split.
Qed.

Lemma stalled_loop fuel : ∀ st, stalled (pcbs st) → loop fuel 0 st = None.
Proof.
  induction fuel as [|fuel IH]; intros st Hst; [done|]. simpl.
  assert (Hall : allProcessesTerminated (pcbs st) = false).
  { destruct Hst as [Hne HF]. destruct (pcbs st) as [|p ps]; [done|].
    apply Forall_cons in HF as [(Hs & _) _]. simpl.
    by destruct (String.eqb_spec (state p) "Terminated"). }
  rewrite Hall. destruct (tick 0 st) as [st'|] eqn:Htick; simpl; [|done].
  apply IH. by apply (stalled_tick st).
Qed.

(** X9: with a quantum of 0 no record advances: on any non-empty vector of
    fresh records with positive work [kernelSimulator] never leaves its
    loop, whatever the bound on the iterations. *)
Theorem zero_quantum_never_halts es fuel :
  valid_work es → es ≠ [] → kernelSimulator fuel (pcbs_of es) 0 = None.
Proof.
  intros Hw Hne. unfold kernelSimulator.
  rewrite stalled_loop; [done|]. simpl. split.
  - destruct es; [done|]. discriminate.
  - unfold pcbs_of. apply Forall_fmap. eapply Forall_impl; [exact Hw|].
    intros e [Hpos Hmax]. simpl. repeat split; try done; lia.
Qed.

Lemma zero_quantum_never_halts_witness :
  valid_work scenario_A ∧ scenario_A ≠ [] ∧
  kernelSimulator 50 (pcbs_of scenario_A) 0 = None.
Proof.
  assert (Hw : valid_work scenario_A) by exact (valid_entries_work _ valid_scenario_A).
  assert (Hne : scenario_A ≠ []) by discriminate.
  split; [exact Hw|]. split; [exact Hne|].
  exact (zero_quantum_never_halts scenario_A 50 Hw Hne).
Defined.

(** ** States of the records along a valid run *)

Lemma not_terminated_check ps i p :
  ps !! i = Some p → state p ≠ "Terminated"%string →
  allProcessesTerminated ps = false.
Proof.
  intros Hp Hs. destruct (allProcessesTerminated ps) eqn:Hall; [|done].
  apply allProcessesTerminated_Forall in Hall.
  rewrite Forall_lookup in Hall. by specialize (Hall i p Hp).
Qed.

(** X10: at every completion check of a valid run the queue holds each index at
    most once, the queued indices are exactly those of the Ready records,
    the others are exactly those of the Terminated records, and no record
    is Running. *)
Theorem queue_holds_unfinished es st :
  valid_entries es → reachable 2 es st →
  NoDup (readyQueue st) ∧
  (∀ i, i ∈ readyQueue st → is_Some (pcbs st !! i)) ∧
  ∀ i p, pcbs st !! i = Some p →
         (i ∈ readyQueue st ↔ state p = "Ready"%string) ∧
         (i ∉ readyQueue st ↔ state p = "Terminated"%string).
Proof.
  intros Hv Hr. pose proof (valid_entries_work es Hv) as Hw.
  destruct (Inv_reachable es Hw st Hr) as (Hnd & Hlen & Hrec & Hq).
  split; [done|]. split.
  - intros i Hi. apply lookup_lt_is_Some_2. rewrite Hlen. by apply Hq.
  - intros i p Hp.
    destruct (lookup_lt_is_Some_2 es i) as [e He].
    { apply lookup_lt_Some in Hp. lia. }
    destruct (Hrec i e p He Hp) as (_ & _ & _ & [(Hin & Hs & _)|(Hnin & Hs & _)]);
      rewrite Hs; split; split; try done.
Qed.

Lemma queue_holds_unfinished_witness :
  valid_entries scenario_A ∧ reachable 2 scenario_A scenario_A_tick2 ∧
  NoDup (readyQueue scenario_A_tick2) ∧
  (∀ i, i ∈ readyQueue scenario_A_tick2 → is_Some (pcbs scenario_A_tick2 !! i)) ∧
  ∀ i p, pcbs scenario_A_tick2 !! i = Some p →
         (i ∈ readyQueue scenario_A_tick2 ↔ state p = "Ready"%string) ∧
         (i ∉ readyQueue scenario_A_tick2 ↔ state p = "Terminated"%string).
Proof.
  assert (Hr : reachable 2 scenario_A scenario_A_tick2).
  { destruct scenario_A_steps as (H1 & H2 & _).
    eapply rtc_l; [exact H1|]. eapply rtc_l; [exact H2|]. apply rtc_refl. }
  split; [exact valid_scenario_A|]. split; [exact Hr|].
  exact (queue_holds_unfinished scenario_A _ valid_scenario_A Hr).
Defined.

(** X11: in every trace of a valid run at most one record is Running: a record
    traced Running is the one dispatched on that tick, and it still has
    work to do. *)
Theorem one_running_at_trace es st tr j p :
  valid_entries es → reachable 2 es st →
  observed 2 st = Some tr → tr !! j = Some p → state p = "Running"%string →
  dispatched st = Some j ∧ pc p < total_work p.
Proof.
  intros Hv Hr Hobs Hj Hs. pose proof (valid_entries_work es Hv) as Hw.
  pose proof (Inv_reachable es Hw st Hr) as HI.
  assert (Hidle : ∀ r, pcbs st !! j = Some r → state r ≠ "Running"%string).
  { intros r Hr'. destruct HI as (_ & Hlen & Hrec & _).
    destruct (lookup_lt_is_Some_2 es j) as [e He].
    { apply lookup_lt_Some in Hr'. lia. }
    destruct (Hrec j e r He Hr') as (_ & _ & _ & [(_ & Hs' & _)|(_ & Hs' & _)]);
      rewrite Hs'; discriminate. }
  unfold observed, before_print, dispatched in *.
  destruct (readyQueue st) as [|i rest] eqn:Hq; simpl in *.
  - inversion Hobs; subst tr. by destruct (Hidle p Hj).
  - destruct (Inv_head es Hw st i rest HI Hq)
      as (e & p0 & He & Hp0 & _ & _ & _ & H0 & Hlt & Hmax).
    rewrite Hp0 in Hobs. simpl in Hobs. inversion Hobs; subst tr.
    assert (Hi : (i < length (pcbs st))%nat) by (eapply lookup_lt_Some; eauto).
    destruct (decide (i = j)) as [->|Hne].
    + rewrite list_lookup_insert_eq in Hj by done. inversion Hj; subst p.
      split; [done|]. rewrite (dispatch_unfinished p0) in Hs |- * by done.
      simpl in *. destruct (Z.ltb_spec (pc p0 + 2) (total_work p0)); [lia|discriminate].
    + rewrite list_lookup_insert_ne in Hj by done. by destruct (Hidle p Hj).
Qed.

Lemma one_running_at_trace_witness :
  valid_entries scenario_A ∧
  reachable 2 scenario_A (initial (pcbs_of scenario_A)) ∧
  observed 2 (initial (pcbs_of scenario_A)) =
    Some [mkPCB 1 "Running" 2 3; mkPCB 2 "Ready" 0 2] ∧
  [mkPCB 1 "Running" 2 3; mkPCB 2 "Ready" 0 2] !! 0%nat = Some (mkPCB 1 "Running" 2 3) ∧
  state (mkPCB 1 "Running" 2 3) = "Running"%string ∧
  dispatched (initial (pcbs_of scenario_A)) = Some 0%nat ∧
  pc (mkPCB 1 "Running" 2 3) < total_work (mkPCB 1 "Running" 2 3).
Proof.
  assert (Hr : reachable 2 scenario_A (initial (pcbs_of scenario_A))) by apply rtc_refl.
  assert (Hobs : observed 2 (initial (pcbs_of scenario_A)) =
                 Some [mkPCB 1 "Running" 2 3; mkPCB 2 "Ready" 0 2]) by reflexivity.
  assert (Hj : [mkPCB 1 "Running" 2 3; mkPCB 2 "Ready" 0 2] !! 0%nat
               = Some (mkPCB 1 "Running" 2 3)) by reflexivity.
  assert (Hs : state (mkPCB 1 "Running" 2 3) = "Running"%string) by reflexivity.
  split; [exact valid_scenario_A|]. split; [exact Hr|]. split; [exact Hobs|].
  split; [exact Hj|]. split; [exact Hs|].
  exact (one_running_at_trace scenario_A _ _ 0%nat _ valid_scenario_A Hr Hobs Hj Hs).
Defined.

(** X12: Terminated is absorbing: once a record of a valid run is Terminated,
    no later iteration changes it. *)
Theorem terminated_stays es st st' i p :
  valid_entries es → reachable 2 es st → rtc (step 2) st st' →
  pcbs st !! i = Some p → state p = "Terminated"%string →
  pcbs st' !! i = Some p.
Proof.
  intros Hv Hr Hrtc Hp Hs. pose proof (valid_entries_work es Hv) as Hw.
  pose proof (Inv_reachable es Hw st Hr) as HI. clear Hr.
  induction Hrtc as [st|st st1 st2 Hstep Hrtc IH]; [done|].
  apply IH; [|by apply (Inv_step es Hw st)].
  destruct (step_after es Hw st st1 HI Hstep)
    as (j & rest & e & q & Hst & He & Hq & _ & _ & Hsq & _ & _ & _ & ->).
  simpl. rewrite list_lookup_insert_ne; [done|].
  intros ->. assert (q = p) by congruence. subst q. rewrite Hs in Hsq. discriminate.
Qed.

Lemma terminated_stays_witness :
  valid_entries scenario_A ∧ reachable 2 scenario_A scenario_A_tick2 ∧
  rtc (step 2) scenario_A_tick2 scenario_A_tick3 ∧
  pcbs scenario_A_tick2 !! 1%nat = Some (mkPCB 2 "Terminated" 2 2) ∧
  state (mkPCB 2 "Terminated" 2 2) = "Terminated"%string ∧
  pcbs scenario_A_tick3 !! 1%nat = Some (mkPCB 2 "Terminated" 2 2).
Proof.
  destruct scenario_A_steps as (H1 & H2 & H3).
  assert (Hr : reachable 2 scenario_A scenario_A_tick2).
  { eapply rtc_l; [exact H1|]. eapply rtc_l; [exact H2|]. apply rtc_refl. }
  assert (Hrtc : rtc (step 2) scenario_A_tick2 scenario_A_tick3).
  { eapply rtc_l; [exact H3|]. apply rtc_refl. }
  assert (Hp : pcbs scenario_A_tick2 !! 1%nat = Some (mkPCB 2 "Terminated" 2 2))
    by reflexivity.
  assert (Hs : state (mkPCB 2 "Terminated" 2 2) = "Terminated"%string) by reflexivity.
  split; [exact valid_scenario_A|]. split; [exact Hr|]. split; [exact Hrtc|].
  split; [exact Hp|]. split; [exact Hs|].
  exact (terminated_stays scenario_A _ _ 1%nat _ valid_scenario_A Hr Hrtc Hp Hs).
Defined.

(** ** Bounded waiting *)

Lemma waiting_Inv es : valid_work es → ∀ pre st i post,
  Inv es st → readyQueue st = pre ++ i :: post →
  ∃ heads st', run 2 st heads st' ∧ dispatch_log heads = pre ∧
               dispatched st' = Some i ∧
               allProcessesTerminated (pcbs st') = false.
Proof.
  intros Hw. induction pre as [|a pre IH]; intros st i post HI Hq; simpl in Hq.
  - exists [], st. split; [constructor|]. split; [done|].
    unfold dispatched. rewrite Hq. split; [done|].
    destruct (Inv_head es Hw st i post HI Hq) as (e & p & _ & Hp & _ & _ & Hs & _).
    apply (not_terminated_check _ i p Hp). rewrite Hs. discriminate.
  - destruct (Inv_head es Hw st a _ HI Hq)
      as (e & p & He & Hp & _ & _ & Hs & H0 & Hlt & Hmax).
    assert (Hall : allProcessesTerminated (pcbs st) = false).
    { apply (not_terminated_check _ a p Hp). rewrite Hs. discriminate. }
    assert (Hstep : step 2 st (after_tick st a (pre ++ i :: post) p)).
    { constructor; [done|]. by apply tick_head. }
    pose proof (Inv_step es Hw _ _ HI Hstep) as HI1.
    destruct (IH (after_tick st a (pre ++ i :: post) p) i
                 (if pc p + 2 <? total_work p then post ++ [a] else post) HI1)
      as (heads & st' & Hrun & Hlog & Hd & Hnt).
    { simpl. destruct (pc p + 2 <? total_work p); [|done].
      by rewrite <- app_assoc. }
    exists (st :: heads), st'. split; [by econstructor|].
    split; [|done]. unfold dispatch_log in *. rewrite omap_cons_option_list.
    unfold dispatched at 1. rewrite Hq. simpl. by rewrite Hlog.
Qed.

(** X13: No starvation: in a valid run, a process that has [k] indices before
    it in the queue is dispatched after exactly [k] further ticks, which
    dispatch those [k] indices in queue order. *)
Theorem bounded_waiting es st pre i post :
  valid_entries es → reachable 2 es st →
  readyQueue st = pre ++ i :: post →
  ∃ heads st', run 2 st heads st' ∧ length heads = length pre ∧
               dispatch_log heads = pre ∧ dispatched st' = Some i ∧
               allProcessesTerminated (pcbs st') = false.
Proof.
  intros Hv Hr Hq. pose proof (valid_entries_work es Hv) as Hw.
  pose proof (Inv_reachable es Hw st Hr) as HI.
  destruct (waiting_Inv es Hw pre st i post HI Hq) as (heads & st' & Hrun & Hlog & Hd & Hnt).
  exists heads, st'. repeat split; try done.
  rewrite <- Hlog. clear -Hrun HI Hw.
  induction Hrun as [st|st st1 heads st2 Hstep Hrun IH]; [done|].
  destruct (step_after es Hw st st1 HI Hstep) as (j & rest & _ & _ & Hst & _).
  unfold dispatch_log in *. rewrite omap_cons_option_list.
  unfold dispatched at 1. rewrite Hst. simpl.
  f_equal. apply IH. by apply (Inv_step es Hw st).
Qed.

Lemma bounded_waiting_witness :
  valid_entries scenario_A ∧ reachable 2 scenario_A scenario_A_tick1 ∧
  readyQueue scenario_A_tick1 = [1%nat] ++ 0%nat :: [] ∧
  ∃ heads st', run 2 scenario_A_tick1 heads st' ∧ length heads = length [1%nat] ∧
               dispatch_log heads = [1%nat] ∧ dispatched st' = Some 0%nat ∧
               allProcessesTerminated (pcbs st') = false.
Proof.
  assert (Hr : reachable 2 scenario_A scenario_A_tick1).
  { eapply rtc_l; [apply scenario_A_steps|apply rtc_refl]. }
  assert (Hq : readyQueue scenario_A_tick1 = [1%nat] ++ 0%nat :: []) by reflexivity.
  split; [exact valid_scenario_A|]. split; [exact Hr|]. split; [exact Hq|].
  exact (bounded_waiting scenario_A _ [1%nat] 0%nat [] valid_scenario_A Hr Hq).
Defined.

(** ** What [main] reads *)

Lemma read_processes_take n : ∀ input ps pids,
  read_processes n (take (2 * n) input) ps pids = read_processes n input ps pids.
Proof.
  induction n as [|n IH]; intros input ps pids; [done|].
  replace (2 * S n)%nat with (S (S (2 * n))) by lia.
  destruct input as [|t1 [|t2 rest]]; [done|done|].
  cbn [take read_processes extract_int].
  destruct t1 as [v|]; [|done]. destruct (in_int_range v); [|done].
  cbn [extract_int].
  destruct t2 as [w|]; [|done]. destruct (in_int_range w); [|done].
  destruct (w <=? 0); [done|]. destruct (bool_decide (v ∈ pids)); [done|].
  apply IH.
Qed.

(** X14: [main] reads the count and then at most that many pairs: the tokens
    after them never change its outcome. *)
Theorem main_ignores_trailing_tokens fuel input n :
  count_of input = Some n →
  main fuel (take (1 + 2 * Z.to_nat n) input) = main fuel input.
Proof.
  unfold count_of, token_int. destruct input as [|t rest]; [done|]. simpl lookup.
  destruct t as [z|]; [|done]. destruct (in_int_range z) eqn:Hr; [|done].
  intros H. inversion H; subst z.
  change (take (1 + 2 * Z.to_nat n) (Int n :: rest))
    with (Int n :: take (2 * Z.to_nat n) rest).
  unfold main. cbn [extract_int]. rewrite Hr.
  destruct (n <=? 0); [done|]. by rewrite read_processes_take.
Qed.

Lemma main_ignores_trailing_tokens_witness :
  count_of [Int 1; Int 5; Int 1; Malformed; Int (-3); Int 0] = Some 1 ∧
  main 4 (take (1 + 2 * Z.to_nat 1) [Int 1; Int 5; Int 1; Malformed; Int (-3); Int 0])
  = main 4 [Int 1; Int 5; Int 1; Malformed; Int (-3); Int 0].
Proof.
  assert (H : count_of [Int 1; Int 5; Int 1; Malformed; Int (-3); Int 0] = Some 1)
    by reflexivity.
  split; [exact H|].
  exact (main_ignores_trailing_tokens 4 _ 1 H).
Defined.

(** ** Which diagnostic [main] reports *)

Lemma read_processes_step input m i ps pids :
  read_processes (S m) (drop (1 + 2 * i) input) ps pids =
  match pid_at input i with
  | None => inl "Error: Invalid input format for process data"%string
  | Some v =>
      match work_at input i with
      | None => inl "Error: Invalid input format for process data"%string
      | Some w =>
          if w <=? 0 then inl ("Error: Invalid work units for PID " +:+ show_int v)
          else if bool_decide (v ∈ pids) then
            inl ("Error: Duplicate PID " +:+ show_int v +:+ " detected")
          else read_processes m (drop (1 + 2 * S i) input)
                              (ps ++ [new_PCB v w]) ({[v]} ∪ pids)
      end
  end.
Proof.
  cbn [read_processes]. rewrite extract_int_drop. fold (pid_at input i).
  destruct (pid_at input i) as [v|]; cbn -[Nat.mul Nat.add drop]; [|done].
  rewrite extract_int_drop. fold (work_at input i).
  destruct (work_at input i) as [w|]; cbn -[Nat.mul Nat.add drop]; [|done].
  by replace (S (S (1 + 2 * i))) with (1 + 2 * S i)%nat by lia.
Qed.

Lemma read_processes_skip input k : ∀ i0 m ps pids,
  (∀ v, v ∈ pids ↔ ∃ j, (j < i0)%nat ∧ pid_at input j = Some v) →
  (∀ j, (i0 <= j < i0 + k)%nat → ¬ entry_error input j) →
  ∃ ps' pids',
    (∀ v, v ∈ pids' ↔ ∃ j, (j < i0 + k)%nat ∧ pid_at input j = Some v) ∧
    read_processes (k + m) (drop (1 + 2 * i0) input) ps pids =
    read_processes m (drop (1 + 2 * (i0 + k)) input) ps' (pids' : gset Z).
Proof.
  induction k as [|k IH]; intros i0 m ps pids Hpids Hok.
  { exists ps, pids. rewrite Nat.add_0_r. by split. }
  assert (Hgood : ¬ entry_error input i0) by (apply Hok; lia).
  change (S k + m)%nat with (S (k + m)). rewrite read_processes_step.
  destruct (pid_at input i0) as [v|] eqn:Hv; [|exfalso; apply Hgood; by left].
  destruct (work_at input i0) as [w|] eqn:Hwk;
    [|exfalso; apply Hgood; right; by left].
  destruct (Z.leb_spec w 0) as [Hle|Hgt].
  { exfalso. apply Hgood. right. right. left. by exists w. }
  rewrite bool_decide_eq_false_2.
  2:{ intros Hin. apply Hpids in Hin as (j & Hj & Hpj).
      apply Hgood. right. right. right. by exists j, v. }
  destruct (IH (S i0) m (ps ++ [new_PCB v w]) ({[v]} ∪ pids)) as (ps' & pids' & Hp' & Heq).
  - intros u. rewrite elem_of_union, elem_of_singleton, Hpids. split.
    + intros [->|(j & Hj & Hpj)]; [exists i0; split; [lia|done]|].
      exists j. split; [lia|done].
    + intros (j & Hj & Hpj). destruct (decide (j = i0)) as [->|Hne].
      * left. congruence.
      * right. exists j. split; [lia|done].
  - intros j Hj. apply Hok. lia.
  - exists ps', pids'. replace (i0 + S k)%nat with (S i0 + k)%nat by lia. by split.
Qed.

(** The diagnostic in terms of the tokens read. *)
Lemma first_error_tokens input n i :
  count_of input = Some n → Z.of_nat i < n →
  (∀ j, (j < i)%nat → ¬ entry_error input j) →
  (pid_at input i = None ∨ work_at input i = None →
   ∀ fuel, main fuel input =
           Some (failure "Error: Invalid input format for process data")) ∧
  (∀ v w, pid_at input i = Some v → work_at input i = Some w → w <= 0 →
   ∀ fuel, main fuel input =
           Some (failure ("Error: Invalid work units for PID " +:+ show_int v))) ∧
  (∀ v w j, pid_at input i = Some v → work_at input i = Some w → 0 < w →
            (j < i)%nat → pid_at input j = Some v →
   ∀ fuel, main fuel input =
           Some (failure ("Error: Duplicate PID " +:+ show_int v +:+ " detected"))).
Proof.
  intros Hn Hi Hok.
  assert (Hmain : ∀ fuel, main fuel input =
            match read_processes (Z.to_nat n) (drop 1 input) [] ∅ with
            | inl d => Some (failure d)
            | inr ps => '(_, lines) ← kernelSimulator fuel ps 2; Some (success lines)
            end).
  { intros fuel. unfold main.
    change (extract_int input) with (extract_int (drop 0 input)).
    rewrite extract_int_drop. fold (count_of input). rewrite Hn.
    cbn -[Nat.mul Nat.add drop read_processes].
    by rewrite (proj2 (Z.leb_gt n 0)) by lia. }
  assert (Hset : ∀ v, v ∈ (∅ : gset Z) ↔ ∃ j, (j < 0)%nat ∧ pid_at input j = Some v).
  { intros v. split; [set_solver|]. intros (j & Hj & _). lia. }
  destruct (read_processes_skip input i 0 (S (Z.to_nat n - S i)) [] ∅ Hset)
    as (ps' & pids' & Hpids' & Heq).
  { intros j Hj. apply Hok. lia. }
  replace (i + S (Z.to_nat n - S i))%nat with (Z.to_nat n) in Heq by lia.
  change (drop (1 + 2 * 0) input) with (drop 1 input) in Heq.
  change (0 + i)%nat with i in Heq, Hpids'.
  rewrite read_processes_step in Heq.
  split; [|split].
  - intros Hbad fuel. rewrite Hmain, Heq.
    destruct (pid_at input i); [|done].
    destruct Hbad as [Hbad|Hbad]; [discriminate|]. by rewrite Hbad.
  - intros v w Hv Hw Hle fuel. rewrite Hmain, Heq, Hv, Hw.
    by rewrite (proj2 (Z.leb_le w 0)).
  - intros v w j Hv Hw Hpos Hj Hpj fuel. rewrite Hmain, Heq, Hv, Hw.
    rewrite (proj2 (Z.leb_gt w 0)) by done.
    rewrite bool_decide_eq_true_2; [done|]. apply Hpids'. by exists j.
Qed.

(** X15: the diagnostic is that of the first entry with an error, and within an
    entry the checks are made in the order format, work, duplicate.  With
    the input read as [std::cin >> int] reads it: if the count is a
    positive [int], entries [0 .. i-1] are without error and entry [i] is
    among the announced ones, then [main] reports a format error when the
    extraction of the pid or of the work of entry [i] fails; otherwise an
    invalid-work error naming the pid when the work is not positive, even
    if the pid is also a duplicate; otherwise a duplicate-pid error when the
    pid was read before. *)
Theorem first_error_diagnostic s n i :
  count_of (lex s) = Some n → Z.of_nat i < n →
  (∀ j, (j < i)%nat → ¬ entry_error (lex s) j) →
  (pid_at (lex s) i = None ∨ work_at (lex s) i = None →
   ∀ fuel, main_stdin fuel s =
           Some (failure "Error: Invalid input format for process data")) ∧
  (∀ v w, pid_at (lex s) i = Some v → work_at (lex s) i = Some w → w <= 0 →
   ∀ fuel, main_stdin fuel s =
           Some (failure ("Error: Invalid work units for PID " +:+ show_int v))) ∧
  (∀ v w j, pid_at (lex s) i = Some v → work_at (lex s) i = Some w → 0 < w →
            (j < i)%nat → pid_at (lex s) j = Some v →
   ∀ fuel, main_stdin fuel s =
           Some (failure ("Error: Duplicate PID " +:+ show_int v +:+ " detected"))).
Proof.
  intros Hn Hi Hok.
  destruct (first_error_tokens (lex s) n i Hn Hi Hok) as (Hfmt & Hwork & Hdup).
  split; [|split].
  - intros Hbad fuel. rewrite main_stdin_lex. by apply Hfmt.
  - intros v w Hv Hw Hle fuel. rewrite main_stdin_lex. by apply (Hwork v w).
  - intros v w j Hv Hw Hpos Hj Hpj fuel. rewrite main_stdin_lex.
    by apply (Hdup v w j).
Qed.

Lemma first_error_diagnostic_witness :
  count_of (lex "2 7 1 7 0abc") = Some 2 ∧
  Z.of_nat 1 < 2 ∧
  (∀ j, (j < 1)%nat → ¬ entry_error (lex "2 7 1 7 0abc") j) ∧
  (pid_at (lex "2 7 1 7 0abc") 1 = None ∨ work_at (lex "2 7 1 7 0abc") 1 = None →
   ∀ fuel, main_stdin fuel "2 7 1 7 0abc" =
           Some (failure "Error: Invalid input format for process data")) ∧
  (∀ v w, pid_at (lex "2 7 1 7 0abc") 1 = Some v →
          work_at (lex "2 7 1 7 0abc") 1 = Some w → w <= 0 →
   ∀ fuel, main_stdin fuel "2 7 1 7 0abc" =
           Some (failure ("Error: Invalid work units for PID " +:+ show_int v))) ∧
  (∀ v w j, pid_at (lex "2 7 1 7 0abc") 1 = Some v →
            work_at (lex "2 7 1 7 0abc") 1 = Some w → 0 < w →
            (j < 1)%nat → pid_at (lex "2 7 1 7 0abc") j = Some v →
   ∀ fuel, main_stdin fuel "2 7 1 7 0abc" =
           Some (failure ("Error: Duplicate PID " +:+ show_int v +:+ " detected"))).
Proof.
  assert (Hn : count_of (lex "2 7 1 7 0abc") = Some 2) by reflexivity.
  assert (Hi : Z.of_nat 1 < 2) by (simpl; lia).
  assert (Hok : ∀ j, (j < 1)%nat → ¬ entry_error (lex "2 7 1 7 0abc") j).
  { intros j Hj. assert (j = 0%nat) by lia. subst j.
    intros [H|[H|[(w & H & Hle)|(k & v & Hk & _)]]]; try discriminate H; [|lia].
    vm_compute in H. inversion H; subst w. lia. }
  split; [exact Hn|]. split; [exact Hi|]. split; [exact Hok|].
  exact (first_error_diagnostic _ 2 1 Hn Hi Hok).
Defined.

(** Work ["0abc"] with a repeated pid: the work is read as 0 and the work
    check comes before the duplicate check; a count ["2abc"] is read as 2
    and the error is found in the first entry. *)
Example work_before_duplicate :
  main_stdin 0 "2 7 1 7 0abc" = Some (failure "Error: Invalid work units for PID 7") ∧
  main_stdin 0 "2abc 1 1" = Some (failure "Error: Invalid input format for process data").
Proof. split; reflexivity. Qed.

(** ** Any positive quantum *)

Section any_quantum.
Variable q : Z.
Hypothesis Hq : 1 <= q.
Variable es : list entry.
Hypothesis Hwork : valid_work es.

Lemma dispatch_unfinished_q p :
  0 <= pc p → pc p < total_work p → total_work p <= INT_MAX →
  dispatch q p =
    {| pid := pid p;
       state := if pc p + q <? total_work p then "Running" else "Terminated";
       pc := Z.min (pc p + q) (total_work p);
       total_work := total_work p |}.
Proof.
  intros H0 Hlt Hmax. unfold dispatch, set_pc, set_state; simpl.
  unfold INT_MAX in Hmax.
  rewrite (wrap_int_id (total_work p - pc p)) by (unfold INT_MIN, INT_MAX; lia).
  rewrite wrap_int_id by (unfold INT_MIN, INT_MAX; lia).
  replace (pc p + Z.min q (total_work p - pc p)) with (Z.min (pc p + q) (total_work p)) by lia.
  destruct (Z.ltb_spec (pc p + q) (total_work p)) as [Hl|Hg];
    destruct (Z.geb_spec (Z.min (pc p + q) (total_work p)) (total_work p)); simpl;
    try reflexivity; lia.
Qed.

Lemma tick_head_q st i rest p :
  readyQueue st = i :: rest → pcbs st !! i = Some p →
  0 <= pc p → pc p < total_work p → total_work p <= INT_MAX →
  tick q st = Some (after_tick_q q st i rest p).
Proof.
  intros Hst Hp H0 Hlt Hmax.
  assert (Hi : (i < length (pcbs st))%nat) by (eapply lookup_lt_Some; eauto).
  unfold after_tick_q, advanced_q, tick, before_print. rewrite Hst, Hp. simpl.
  unfold requeue, emit. simpl.
  rewrite list_lookup_insert_eq by done. simpl.
  rewrite (dispatch_unfinished_q p) by done. simpl.
  destruct (Z.ltb_spec (pc p + q) (total_work p)) as [Hl|Hg].
  - rewrite (proj2 (Z.ltb_lt _ _)) by lia.
    rewrite list_insert_insert_eq. unfold set_state. simpl. reflexivity.
  - rewrite (proj2 (Z.ltb_ge _ _)) by lia. reflexivity.
Qed.

Lemma Inv_after_tick_q st i rest e p :
  Inv es st → readyQueue st = i :: rest → es !! i = Some e → pcbs st !! i = Some p →
  pid p = e.1 → total_work p = e.2 → 0 <= pc p → pc p < total_work p →
  Inv es (after_tick_q q st i rest p).
Proof.
  intros (Hnd & Hlen & Hrec & Hqu) Hst He Hp Hpid Htw H0 Hlt.
  rewrite Hst in Hnd, Hrec, Hqu.
  apply NoDup_cons in Hnd as [Hni Hnd].
  unfold Inv, after_tick_q, advanced_q; simpl. rewrite length_insert.
  assert (Hi : (i < length (pcbs st))%nat) by (eapply lookup_lt_Some; eauto).
  split; [|split; [done|split]].
  - destruct (pc p + q <? total_work p); [|done].
    apply NoDup_app. split; [done|]. split; [|apply NoDup_singleton].
    intros x Hx Hx'. apply list_elem_of_singleton in Hx'. by subst.
  - intros j e' r He' Hr.
    destruct (decide (j = i)) as [->|Hne].
    + rewrite list_lookup_insert_eq in Hr by done.
      inversion Hr; subst r; clear Hr.
      assert (e' = e) by congruence. subst e'.
      unfold rec_inv; simpl. repeat split; try done; try lia.
      destruct (Z.ltb_spec (pc p + q) (total_work p)).
      * left. repeat split; [|lia]. apply elem_of_app. right. left.
      * right. repeat split; [done|lia].
    + rewrite list_lookup_insert_ne in Hr by done.
      destruct (Hrec j e' r He' Hr) as (Hpid' & Htw' & H0' & Hcase).
      unfold rec_inv. repeat split; try done.
      assert (Hiff : j ∈ i :: rest ↔ j ∈ rest).
      { rewrite elem_of_cons. split; [intros [Heq|Hr']; [congruence|done] | by right]. }
      destruct Hcase as [(Hin & Hs' & Hl')|(Hnin & Hs' & Hl')].
      * left. repeat split; try done.
        apply Hiff in Hin.
        destruct (pc p + q <? total_work p); [apply elem_of_app; by left|done].
      * right. repeat split; try done.
        rewrite Hiff in Hnin.
        destruct (pc p + q <? total_work p); [|done].
        rewrite elem_of_app, list_elem_of_singleton.
        intros [Hr'|Heq]; [contradiction|congruence].
  - intros j Hj. apply Hqu.
    destruct (pc p + q <? total_work p).
    + apply elem_of_app in Hj as [Hj|Hj]; [by right|].
      apply list_elem_of_singleton in Hj. subst. left.
    + by right.
Qed.

(** Every iteration with quantum [q] is the closed form on the head of the
    queue, and keeps the invariant. *)
Lemma step_after_q st st' :
  Inv es st → step q st st' →
  ∃ i rest p,
    readyQueue st = i :: rest ∧ pcbs st !! i = Some p ∧
    0 <= pc p ∧ pc p < total_work p ∧
    st' = after_tick_q q st i rest p ∧ Inv es st'.
Proof.
  intros HI Hstep. destruct Hstep as [st st' Hall Htick].
  destruct (readyQueue st) as [|i rest] eqn:Hst.
  { exfalso. by apply (Inv_queue_nonempty es st). }
  destruct (Inv_head es Hwork st i rest HI Hst)
    as (e & p & He & Hp & Hpid & Htw & Hs & H0 & Hlt & Hmax).
  rewrite (tick_head_q st i rest p) in Htick by done.
  inversion Htick; subst st'.
  exists i, rest, p. do 5 (split; [done|]).
  by apply (Inv_after_tick_q st i rest e p).
Qed.

Lemma step_enabled_q st :
  Inv es st → allProcessesTerminated (pcbs st) = false → ∃ st', step q st st'.
Proof.
  intros HI Hall.
  destruct (readyQueue st) as [|i rest] eqn:Hst.
  { exfalso. by apply (Inv_queue_nonempty es st). }
  destruct (Inv_head es Hwork st i rest HI Hst)
    as (e & p & He & Hp & Hpid & Htw & Hs & H0 & Hlt & Hmax).
  exists (after_tick_q q st i rest p). constructor; [done|].
  by apply tick_head_q.
Qed.

Lemma remaining_advanced_q p :
  0 <= pc p → pc p < total_work p →
  remaining_q q p = S (remaining_q q (advanced_q q p)).
Proof.
  intros H0 Hlt. unfold remaining_q, advanced_q, ceil_div; simpl.
  rewrite <- Z2Nat.inj_succ.
  2:{ apply Z.div_pos; lia. }
  f_equal. destruct (Z.min_spec (pc p + q) (total_work p)) as [[Hl ->]|[Hg ->]].
  - replace (total_work p - pc p + q - 1) with (total_work p - (pc p + q) + q - 1 + 1 * q)
      by lia.
    rewrite Z.div_add by lia. lia.
  - rewrite Z.sub_diag.
    replace (total_work p - pc p + q - 1) with (total_work p - pc p - 1 + 1 * q) by lia.
    rewrite Z.div_add by lia.
    rewrite (Z.div_small (total_work p - pc p - 1)) by lia.
    rewrite (Z.div_small (0 + q - 1)) by lia. done.
Qed.

Lemma ticks_needed_insert_q ps i p p' :
  ps !! i = Some p →
  (ticks_needed_q q (<[i := p']> ps) + remaining_q q p
   = ticks_needed_q q ps + remaining_q q p')%nat.
Proof.
  revert i. induction ps as [|r ps IH]; intros [|i] Hp; simpl in *; try discriminate.
  - inversion Hp; subst. unfold ticks_needed_q; simpl. lia.
  - specialize (IH i Hp). unfold ticks_needed_q, fmap in *; simpl in *. lia.
Qed.

Lemma loop_terminates_q fuel : ∀ st,
  Inv es st → (ticks_needed_q q (pcbs st) < fuel)%nat →
  ∃ st', loop fuel q st = Some st' ∧ rtc (step q) st st' ∧ Inv es st' ∧
         allProcessesTerminated (pcbs st') = true.
Proof.
  induction fuel as [|fuel IH]; intros st HI Hfuel; [lia|].
  simpl. destruct (allProcessesTerminated (pcbs st)) eqn:Hall.
  - exists st. split; [done|]. split; [apply rtc_refl|]. by split.
  - destruct (step_enabled_q st HI Hall) as [st1 Hstep].
    destruct (step_after_q st st1 HI Hstep)
      as (i & rest & p & Hst & Hp & H0 & Hlt & Heq & HI1).
    assert (Hm : ticks_needed_q q (pcbs st) = S (ticks_needed_q q (pcbs st1))).
    { rewrite Heq. simpl.
      pose proof (ticks_needed_insert_q (pcbs st) i p (advanced_q q p) Hp).
      pose proof (remaining_advanced_q p H0 Hlt). lia. }
    assert (Htick : tick q st = Some st1) by (by destruct Hstep).
    rewrite Htick. simpl.
    destruct (IH _ HI1) as (st' & Hloop & Hrtc & HI' & Hdone); [lia|].
    exists st'. split; [done|]. split; [|by split].
    eapply rtc_l; [exact Hstep|exact Hrtc].
Qed.

Lemma dispatch_count_run_q st heads st' :
  run q st heads st' → Inv es st → allProcessesTerminated (pcbs st') = true →
  ∀ i p, pcbs st !! i = Some p → dispatch_count i heads = remaining_q q p.
Proof.
  intros Hrun. induction Hrun as [st|st st1 heads st2 Hstep Hrun IH];
    intros HI Hdone i p Hp.
  - rewrite (Inv_terminated es st HI Hdone) in Hp.
    rewrite list_lookup_fmap in Hp.
    destruct (es !! i) as [e|]; simpl in Hp; [|discriminate].
    inversion Hp; subst p.
    unfold dispatch_count, remaining_q, completed, ceil_div; simpl.
    rewrite Z.sub_diag, Z.div_small by lia. reflexivity.
  - destruct (step_after_q st st1 HI Hstep)
      as (j & rest & r & Hst & Hr & H0 & Hlt & Heq & HI1).
    assert (Hj : (j < length (pcbs st))%nat) by (eapply lookup_lt_Some; eauto).
    rewrite (dispatch_count_cons i st heads j) by (unfold dispatched; by rewrite Hst).
    subst st1. destruct (decide (j = i)) as [->|Hne].
    + assert (r = p) by congruence. subst r.
      rewrite (IH HI1 Hdone i (advanced_q q p)).
      * by rewrite (remaining_advanced_q p).
      * simpl. by apply list_lookup_insert_eq.
    + rewrite (IH HI1 Hdone i p); [done|].
      simpl. by rewrite list_lookup_insert_ne.
Qed.

End any_quantum.

Lemma remaining_q_new q pid w :
  1 <= q → 0 < w → Z.of_nat (remaining_q q (new_PCB pid w)) = ceil_div w q.
Proof.
  intros Hq Hw. unfold remaining_q, new_PCB; simpl. rewrite Z.sub_0_r.
  apply Z2Nat.id. unfold ceil_div. apply Z.div_pos; lia.
Qed.

(** [ceil_div w q] is the least integer [k] with [w <= k * q]. *)
Lemma ceil_div_spec w q :
  1 <= q → w <= ceil_div w q * q ∧ (ceil_div w q - 1) * q < w.
Proof.
  intros Hq. unfold ceil_div.
  pose proof (Z.div_mod (w + q - 1) q). pose proof (Z.mod_pos_bound (w + q - 1) q).
  nia.
Qed.

(** X16: [kernelSimulator] with any quantum [q >= 1]: on valid entries the loop
    halts within any bound above the ticks needed, every record ends
    Terminated with its progress equal to its total work, and over the run
    the process with work [w] is dispatched exactly [ceil (w / q)] times. *)
Theorem any_positive_quantum q es fuel :
  1 <= q → valid_entries es → (ticks_needed_q q (pcbs_of es) < fuel)%nat →
  ∃ lines heads st,
    kernelSimulator fuel (pcbs_of es) q = Some (completed <$> es, lines) ∧
    run q (initial (pcbs_of es)) heads st ∧
    allProcessesTerminated (pcbs st) = true ∧
    ∀ i e, es !! i = Some e → Z.of_nat (dispatch_count i heads) = ceil_div e.2 q.
Proof.
  intros Hq Hv Hfuel. pose proof (valid_entries_work es Hv) as Hw.
  pose proof (Inv_initial es Hw) as HI.
  destruct (loop_terminates_q q Hq es Hw fuel _ HI Hfuel)
    as (st & Hloop & Hrtc & HI' & Hdone).
  destruct (rtc_run _ _ _ Hrtc) as [heads Hrun].
  exists (cout st), heads, st. split; [|split; [done|split; [done|]]].
  - unfold kernelSimulator. rewrite Hloop. simpl.
    by rewrite (Inv_terminated es st HI' Hdone).
  - intros i e He.
    rewrite (dispatch_count_run_q q Hq es Hw _ _ _ Hrun HI Hdone i (new_PCB e.1 e.2)).
    + apply remaining_q_new; [done|]. apply (work_bounds es Hw i e He).
    + simpl. unfold pcbs_of. by rewrite list_lookup_fmap, He.
Qed.

Lemma any_positive_quantum_witness :
  1 <= 3 ∧ valid_entries scenario_A ∧
  (ticks_needed_q 3 (pcbs_of scenario_A) < 3)%nat ∧
  ∃ lines heads st,
    kernelSimulator 3 (pcbs_of scenario_A) 3 = Some (completed <$> scenario_A, lines) ∧
    run 3 (initial (pcbs_of scenario_A)) heads st ∧
    allProcessesTerminated (pcbs st) = true ∧
    ∀ i e, scenario_A !! i = Some e →
           Z.of_nat (dispatch_count i heads) = ceil_div e.2 3.
Proof.
  assert (Hq : 1 <= 3) by lia.
  assert (Hfuel : (ticks_needed_q 3 (pcbs_of scenario_A) < 3)%nat) by (vm_compute; lia).
  split; [exact Hq|]. split; [exact valid_scenario_A|]. split; [exact Hfuel|].
  exact (any_positive_quantum 3 scenario_A 3 Hq valid_scenario_A Hfuel).
Defined.

(** X17: an input on which the first extraction fails (nothing but whitespace,
    the empty input included; no digit after the optional sign; a value
    outside the range of [int]) is reported as an invalid input for the
    number of processes; a count that is read and is not positive is
    reported as an invalid number of processes, whatever follows its
    digits. *)
Theorem count_diagnostic s :
  (cin_extract s = None →
   ∀ fuel, main_stdin fuel s =
           Some (failure "Error: Invalid input for number of processes")) ∧
  (skip_ws s = EmptyString → cin_extract s = None) ∧
  (∀ c r, skip_ws s = String c r → digit_of c = None →
          c ≠ "-"%char → c ≠ "+"%char → cin_extract s = None) ∧
  (∀ n rest, cin_extract s = Some (n, rest) → n <= 0 →
   ∀ fuel, main_stdin fuel s =
           Some (failure "Error: Invalid number of processes")).
Proof.
  split; [|split; [|split]].
  - intros He fuel. unfold main_stdin. by rewrite He.
  - intros Hws. unfold cin_extract. by rewrite Hws.
  - intros c r Hws Hd Hm Hp. unfold cin_extract. rewrite Hws.
    rewrite (proj2 (Ascii.eqb_neq c "-") Hm), (proj2 (Ascii.eqb_neq c "+") Hp).
    unfold read_number. simpl. by rewrite Hd.
  - intros n rest He Hle fuel. unfold main_stdin. rewrite He.
    by rewrite (proj2 (Z.leb_le n 0)).
Qed.

(** The count diagnostics on a blank input, on a count followed by
    letters and on a count too large for an [int]. *)
Example count_diagnostic_inputs :
  main_stdin 0 "  " = Some (failure "Error: Invalid input for number of processes") ∧
  main_stdin 0 "abc 1 1" = Some (failure "Error: Invalid input for number of processes") ∧
  main_stdin 0 "2147483648 1 1" =
    Some (failure "Error: Invalid input for number of processes") ∧
  main_stdin 0 "0abc 1 1" = Some (failure "Error: Invalid number of processes") ∧
  main_stdin 0 "-3" = Some (failure "Error: Invalid number of processes").
Proof. repeat split; reflexivity. Qed.

(** ** Reading what was printed *)

Lemma read_digits_string_of_uint d tail :
  no_digit_ahead tail →
  read_digits (NilEmpty.string_of_uint d +:+ tail) = (d, tail).
Proof.
  intros Htail. induction d; simpl; rewrite ?IHd; try reflexivity.
  destruct tail as [|c tail]; [done|]. simpl in *. by rewrite Htail.
Qed.

Lemma string_of_uint_head d :
  d ≠ Decimal.Nil →
  ∃ c r, NilEmpty.string_of_uint d = String c r ∧ is_space c = false ∧
         Ascii.eqb c "-"%char = false ∧ Ascii.eqb c "+"%char = false.
Proof. intros Hd. destruct d; [done|..]; eexists _, _; repeat split. Qed.

Lemma read_number_to_uint (p : positive) (negative : bool) tail :
  no_digit_ahead tail →
  in_int_range (if negative then Z.neg p else Z.pos p) = true →
  read_number negative (NilEmpty.string_of_uint (Pos.to_uint p) +:+ tail)
  = Some (if negative then Z.neg p else Z.pos p, tail).
Proof.
  intros Htail Hr. unfold read_number.
  rewrite read_digits_string_of_uint by done.
  pose proof (DecimalPos.Unsigned.to_uint_nonnil p) as Hnn.
  assert (Hv : Z.of_uint (Pos.to_uint p) = Z.pos p).
  { unfold Z.of_uint. by rewrite DecimalPos.Unsigned.of_to. }
  destruct (Pos.to_uint p) eqn:Hd; [done|..]; cbv zeta; rewrite Hv;
    (destruct negative; [change (- Z.pos p) with (Z.neg p)|]); by rewrite Hr.
Qed.

(** What [operator<<] prints for an [int], [operator>>] reads back, when
    the text does not go on with a digit. *)
Lemma cin_extract_show_int z tail :
  in_int_range z = true → no_digit_ahead tail →
  cin_extract (show_int z +:+ tail) = Some (z, tail).
Proof.
  intros Hr Htail. unfold show_int. destruct z as [|p|p]; simpl.
  - unfold cin_extract, read_number. simpl.
    destruct tail as [|c tail]; [done|]. simpl in *. by rewrite Htail.
  - pose proof (DecimalPos.Unsigned.to_uint_nonnil p) as Hnn.
    destruct (string_of_uint_head _ Hnn) as (c & r & Hs & Hsp & Hm & Hp).
    assert (Hz : NilZero.string_of_uint (Pos.to_uint p)
                 = NilEmpty.string_of_uint (Pos.to_uint p)).
    { by destruct (Pos.to_uint p). }
    rewrite Hz. unfold cin_extract.
    pose proof (read_number_to_uint p false tail Htail Hr) as Hread.
    rewrite Hs in *. simpl. rewrite Hsp, Hm, Hp. exact Hread.
  - pose proof (DecimalPos.Unsigned.to_uint_nonnil p) as Hnn.
    assert (Hz : NilZero.string_of_uint (Pos.to_uint p)
                 = NilEmpty.string_of_uint (Pos.to_uint p)).
    { by destruct (Pos.to_uint p). }
    rewrite Hz. unfold cin_extract. simpl.
    exact (read_number_to_uint p true tail Htail Hr).
Qed.

Lemma cin_extract_skip c s :
  is_space c = true → cin_extract (String c s) = cin_extract s.
Proof. intros Hc. unfold cin_extract. simpl. by rewrite Hc. Qed.

Lemma entries_text_head es : ∃ r, entries_text es = String "010"%char r.
Proof. destruct es; eexists; reflexivity. Qed.

Lemma read_entries_text es : ∀ ps pids,
  Forall (λ e, in_int_range e.1 = true ∧ in_int_range e.2 = true) es →
  read_processes_stdin (length es) (entries_text es) ps pids =
  read_processes (length es) (flat_map (λ e, [Int e.1; Int e.2]) es) ps pids.
Proof.
  induction es as [|[v w] es IH]; intros ps pids Hes; [done|].
  apply Forall_cons in Hes as [[Hv Hw] Hes]. simpl in Hv, Hw.
  cbn [length flat_map app read_processes_stdin read_processes extract_int
       entries_text fst snd].
  change (newline +:+ show_int v +:+ " " +:+ show_int w +:+ entries_text es)
    with (String "010"%char (show_int v +:+ String " "%char (show_int w +:+ entries_text es))).
  rewrite cin_extract_skip by done.
  rewrite cin_extract_show_int by done.
  rewrite cin_extract_skip by done.
  rewrite cin_extract_show_int; [|done|].
  2:{ destruct (entries_text_head es) as [r ->]. done. }
  rewrite Hv. cbn [extract_int]. rewrite Hw.
  destruct (w <=? 0); [done|]. destruct (bool_decide (v ∈ pids)); [done|].
  by apply IH.
Qed.

Lemma lex_Some s z r : cin_extract s = Some (z, r) → lex s = Int z :: lex r.
Proof.
  intros He. destruct (cin_extract_Some s z r He) as [Hlt _].
  unfold lex. destruct (String.length s) as [|n] eqn:Hlen; [lia|].
  simpl. rewrite He. f_equal. apply lex_fuel_enough; lia.
Qed.

Lemma lex_None s : cin_extract s = None → lex s = [Malformed].
Proof.
  intros He. unfold lex. destruct (String.length s); simpl; [done|]. by rewrite He.
Qed.

Lemma lex_entries_text es :
  Forall (λ e, in_int_range e.1 = true ∧ in_int_range e.2 = true) es →
  lex (entries_text es) = flat_map (λ e, [Int e.1; Int e.2]) es ++ [Malformed].
Proof.
  induction 1 as [|[v w] es [Hv Hw] Hes IH]; [by apply lex_None|].
  simpl in Hv, Hw. cbn [entries_text flat_map app fst snd].
  change (newline +:+ show_int v +:+ " " +:+ show_int w +:+ entries_text es)
    with (String "010"%char (show_int v +:+ String " "%char (show_int w +:+ entries_text es))).
  rewrite (lex_Some _ v (String " "%char (show_int w +:+ entries_text es))).
  2:{ rewrite cin_extract_skip by done. by apply cin_extract_show_int. }
  rewrite (lex_Some _ w (entries_text es)).
  2:{ rewrite cin_extract_skip by done. apply cin_extract_show_int; [done|].
      destruct (entries_text_head es) as [r ->]. done. }
  by rewrite IH.
Qed.

(** X18: round trip between the printed form of the numbers and the reader:
    on the text that carries a count and entries that are all [int]s (the
    count, then one line ["pid work"] per entry), [main] reads back exactly
    these numbers, so it behaves as on the token sequence of the entries,
    whether they are valid or not. *)
Theorem main_reads_input_text es fuel :
  Z.of_nat (length es) <= INT_MAX →
  Forall (λ e, in_int_range e.1 = true ∧ in_int_range e.2 = true) es →
  lex (input_text es) = tokens_of es ++ [Malformed] ∧
  main_stdin fuel (input_text es) = main fuel (tokens_of es).
Proof.
  intros Hlen Hes.
  assert (Hn : in_int_range (Z.of_nat (length es)) = true).
  { apply in_int_range_spec. unfold INT_MIN. lia. }
  split.
  - unfold input_text, tokens_of.
    rewrite (lex_Some _ (Z.of_nat (length es)) (entries_text es)).
    + by rewrite lex_entries_text.
    + apply cin_extract_show_int; [done|].
      destruct (entries_text_head es) as [r ->]. done.
  - unfold main_stdin, main, input_text, tokens_of.
    rewrite cin_extract_show_int; [|done|].
    2:{ destruct (entries_text_head es) as [r ->]. done. }
    cbn [extract_int]. rewrite Hn.
    destruct (Z.of_nat (length es) <=? 0); [done|].
    by rewrite Nat2Z.id, read_entries_text.
Qed.

Lemma main_reads_input_text_witness :
  Z.of_nat (length scenario_A) <= INT_MAX ∧
  Forall (λ e, in_int_range e.1 = true ∧ in_int_range e.2 = true) scenario_A ∧
  lex (input_text scenario_A) = tokens_of scenario_A ++ [Malformed] ∧
  main_stdin 4 (input_text scenario_A) = main 4 (tokens_of scenario_A).
Proof.
  assert (Hlen : Z.of_nat (length scenario_A) <= INT_MAX) by (vm_compute; discriminate).
  assert (Hes : Forall (λ e, in_int_range e.1 = true ∧ in_int_range e.2 = true) scenario_A).
  { repeat constructor. }
  split; [exact Hlen|]. split; [exact Hes|].
  exact (main_reads_input_text scenario_A 4 Hlen Hes).
Defined.
